(** * Classical arithmetic behind the Shor demonstration notebook

    Shallow embedding of the three code cells of the notebook
    (brute-force period finding, the incremental sieve of Eratosthenes,
    the bounded prime list and the random semiprime generator) and the
    properties stated about them.

    Python integers are unbounded, so they are [Z]; [%] with a positive
    or negative divisor is floor-modulo, which is [Z.modulo]; [x & 1] is
    [Z.land x 1]; the dictionary [D] of the sieve is a [gmap Z Z]. Loops
    that Python runs without a bound take a [fuel] argument that bounds
    the number of executions of the loop body. *)

From Stdlib Require Import ZArith Zdivisibility Lia List Factorial Sorted.
From stdpp Require Import gmap list fin_maps finite sorting.

Local Open Scope Z_scope.

(** ** Outcomes of a Python call *)

(** The exceptions the modelled code can raise. *)
Inductive exn : Type :=
| ZeroDivisionError   (* [t %= N] with [N == 0] *)
| ValueError          (* [random.randrange(l)] with [l <= 0] *)
| IndexError.         (* [primes[i]] with [i] out of range *)

(** What running a function with a given amount of fuel gives: a
    returned value, a raised exception, or a loop still running when the
    fuel ran out. *)
Inductive outcome (A : Type) : Type :=
| Returned (a : A)
| Raised (e : exn)
| OutOfFuel.

Arguments Returned {A} a.
Arguments Raised {A} e.
Arguments OutOfFuel {A}.

(** ** Brute-force period finding *)

Module Period.

(** One execution of the body of [while t != 1]: [t *= x; t %= N]. The
    counter [n] is incremented next to it. *)
Definition body (x N t : Z) : Z := (t * x) mod N.

(** The loop of [find_period_classical], entered with running product
    [t] and counter [n]. The guard is tested before fuel is looked at, so
    [fuel] is exactly a bound on the executions of the body. *)
Fixpoint find_period_loop (fuel : nat) (x N t n : Z) : outcome Z :=
  if t =? 1 then Returned n
  else
    match fuel with
    | O => OutOfFuel
    | S fuel' =>
        if N =? 0 then Raised ZeroDivisionError
        else find_period_loop fuel' x N (body x N t) (n + 1)
    end.

(** [def find_period_classical(x, N): n = 1; t = x; while ...; return n] *)
Definition find_period_classical (fuel : nat) (x N : Z) : outcome Z :=
  find_period_loop fuel x N x 1.

(** The value of [t] at the loop guard after [k] executions of the body
    (for a nonzero modulus). *)
Fixpoint loop_t (x N : Z) (k : nat) : Z :=
  match k with
  | O => x
  | S k' => body x N (loop_t x N k')
  end.

(** [r] is the least exponent [>= lo] with [x ^ r mod N = 1]. *)
Definition least_power_from (lo x N r : Z) : Prop :=
  lo <= r /\ x ^ r mod N = 1 /\ forall k, lo <= k < r -> x ^ k mod N <> 1.

End Period.

(** ** The incremental sieve of Eratosthenes *)

Module Sieve.

(** The guard of the inner loop, [x in D or not (x & 1)]. *)
Definition tracked_or_even (D : gmap Z Z) (x : Z) : bool :=
  bool_decide (is_Some (D !! x)) || (Z.land x 1 =? 0).

(** [while x in D or not (x & 1): x += p], entered with the given [x];
    gives the [x] the loop exits with. *)
Fixpoint next_multiple (fuel : nat) (D : gmap Z Z) (p x : Z) : option Z :=
  if tracked_or_even D x then
    match fuel with
    | O => None
    | S fuel' => next_multiple fuel' D p (x + p)
    end
  else Some x.

(** One iteration of [for q in 3, 5, 7, ...]: the dictionary after it and
    the value it yields, if it yields. [D.pop(q, None)] removes the key
    when it is there and leaves [D] alone when it is not. *)
Definition loop_body (fuel : nat) (D : gmap Z Z) (q : Z)
  : option (gmap Z Z * option Z) :=
  match D !! q with
  | None => Some (<[q * q := q]> D, Some q)
  | Some p =>
      match next_multiple fuel (delete q D) p (p + q) with
      | Some x => Some (<[x := p]> (delete q D), None)
      | None => None
      end
  end.

(** A generator object of [sieve()]: not yet started, or suspended at a
    [yield] with dictionary [D], the [for] loop resuming at candidate
    [q]. *)
Inductive generator : Type :=
| Fresh
| Suspended (D : gmap Z Z) (q : Z).

(** Run the [for] loop from candidate [q] up to its next [yield]. *)
Fixpoint resume (fuel : nat) (D : gmap Z Z) (q : Z) : option (Z * generator) :=
  match fuel with
  | O => None
  | S fuel' =>
      match loop_body fuel' D q with
      | None => None
      | Some (D', Some v) => Some (v, Suspended D' (q + 2))
      | Some (D', None) => resume fuel' D' (q + 2)
      end
  end.

(** [next(g)]: the first call runs [D = {}; yield 2]. *)
Definition next (fuel : nat) (g : generator) : option (Z * generator) :=
  match g with
  | Fresh => Some (2, Suspended ∅ 3)
  | Suspended D q => resume fuel D q
  end.

(** [list(itertools.takewhile(pred, g))]: pull values while [pred]
    holds; the first value that fails [pred] is dropped and ends the
    list. *)
Fixpoint takewhile (fuel : nat) (pred : Z -> bool) (g : generator)
  : option (list Z) :=
  match fuel with
  | O => None
  | S fuel' =>
      match next fuel' g with
      | None => None
      | Some (v, g') =>
          if pred v then
            match takewhile fuel' pred g' with
            | Some L => Some (v :: L)
            | None => None
            end
          else Some []
      end
  end.

(** [sieve()]: calling the generator function makes a fresh generator
    object and runs none of its body. *)
Definition sieve : generator := Fresh.

(** [def get_primes_sieve(n): return list(takewhile(lambda p: p<n, sieve()))] *)
Definition get_primes_sieve (fuel : nat) (n : Z) : option (list Z) :=
  takewhile fuel (fun p => p <? n) sieve.

(** The generator driven without a consumer bound: its dictionary, its
    next candidate and the values yielded so far, at the head of the
    [for] loop. *)
Record loop_state : Type := LoopState {
  dict : gmap Z Z;
  cand : Z;
  yielded : list Z
}.

Definition initial : loop_state :=
  {| dict := ∅; cand := 3; yielded := [2] |}.

Definition step (fuel : nat) (st : loop_state) : option loop_state :=
  match loop_body fuel (dict st) (cand st) with
  | None => None
  | Some (D', out) =>
      Some {| dict := D';
              cand := cand st + 2;
              yielded := yielded st ++ match out with Some v => [v] | None => [] end |}
  end.

(** The state at the head of the loop after [k] iterations. *)
Fixpoint loop_head (fuel : nat) (k : nat) : option loop_state :=
  match k with
  | O => Some initial
  | S k' =>
      match loop_head fuel k' with
      | Some st => step fuel st
      | None => None
      end
  end.

Definition composite (c : Z) : Prop := 1 < c /\ ~ Z.prime c.

(** The invariant on the entries of [D] at the head of the loop. *)
Definition entries_ok (st : loop_state) : Prop :=
  forall c p, dict st !! c = Some p ->
    Z.prime p /\ Z.odd p = true /\ In p (yielded st) /\
    Z.odd c = true /\ composite c /\ (p | c) /\ cand st <= c.

(** Every odd prime yielded so far is the value of exactly one entry. *)
Definition primes_tracked_once (st : loop_state) : Prop :=
  forall p, In p (yielded st) -> Z.odd p = true ->
    exists c, dict st !! c = Some p /\
      forall c', dict st !! c' = Some p -> c' = c.

Definition head_invariant (st : loop_state) : Prop :=
  entries_ok st /\ primes_tracked_once st.

(** What makes the sieve correct: the entries as above, and for every odd
    prime [p] below the candidate an entry whose key is the first odd
    multiple of [p] from [p * p] on that is not tracked by another
    prime. *)
Record sieve_inv (D : gmap Z Z) (q : Z) : Prop := SieveInv {
  inv_cand : Z.odd q = true /\ 3 <= q;
  inv_entry : forall c p, D !! c = Some p ->
    Z.prime p /\ Z.odd p = true /\ p < q /\ q <= c /\ Z.odd c = true /\
    (p | c) /\ p * p <= c;
  inv_once : forall c c' p, D !! c = Some p -> D !! c' = Some p -> c = c';
  inv_track : forall p, Z.prime p -> Z.odd p = true -> p < q ->
    exists c, D !! c = Some p /\
      forall m, q <= m < c -> Z.odd m = true -> (p | m) -> p * p <= m ->
        is_Some (D !! m)
}.

(** The values yielded so far are exactly the primes below the
    candidate. *)
Definition yielded_primes (st : loop_state) : Prop :=
  forall p, In p (yielded st) <-> Z.prime p /\ p < cand st.

End Sieve.

(** ** The random semiprime *)

Module Semiprime.

(** Computations that read the process-wide random source: the state is
    the number of draws made so far. *)
Definition M (A : Type) : Type := nat -> outcome (A * nat).

Definition ret {A} (a : A) : M A := fun k => Returned (a, k).

Definition raise {A} (e : exn) : M A := fun _ => Raised e.

Definition bind {A B} (m : M A) (f : A -> M B) : M B :=
  fun k =>
    match m k with
    | Returned (a, k') => f a k'
    | Raised e => Raised e
    | OutOfFuel => OutOfFuel
    end.

Definition lift {A} (o : option A) : M A :=
  fun k => match o with Some a => Returned (a, k) | None => OutOfFuel end.

Declare Scope py_scope.
Delimit Scope py_scope with py.
Notation "x <- m ;; f" := (bind m (fun x => f))
  (at level 100, m at next level, right associativity) : py_scope.

(** [primes[i]] on a Python list: a negative index counts from the end,
    an index out of range raises. *)
Definition getitem (L : list Z) (i : Z) : M Z :=
  let len := Z.of_nat (length L) in
  let j := if i <? 0 then i + len else i in
  if (0 <=? j) && (j <? len) then
    match L !! Z.to_nat j with
    | Some v => ret v
    | None => raise IndexError
    end
  else raise IndexError.

Section WithRandomSource.

(** [draw k l] is what the [k]-th call of [random.randrange] returns when
    asked for a number below [l]. *)
Variable draw : nat -> Z -> Z.

(** [random.randrange(l)]: raises on an empty range. *)
Definition randrange (l : Z) : M Z :=
  fun k => if l <=? 0 then Raised ValueError else Returned (draw k l, S k).

Definition get_semiprime (fuel : nat) (n : Z) : M Z :=
  (primes <- lift (Sieve.get_primes_sieve fuel n) ;;
   let l := Z.of_nat (length primes) in
   i <- randrange l ;;
   p <- getitem primes i ;;
   j <- randrange l ;;
   q <- getitem primes j ;;
   ret (p * q))%py.

End WithRandomSource.

(** A random source that stays in the range it is asked for. *)
Definition in_range (draw : nat -> Z -> Z) : Prop :=
  forall k l, 0 < l -> 0 <= draw k l < l.

(** The last statement of the cell, [N = get_semiprime(1000)]: the
    computation whose result is bound to the module-level [N]. *)
Definition notebook_N (draw : nat -> Z -> Z) (fuel : nat) : M Z :=
  get_semiprime draw fuel 1000.

End Semiprime.

(** ** Factor recovery from a period *)

Module Recover.

(** Modelled from the spec: the two failures of FactorRecoverer in the
    spec's error taxonomy; the notebook has no code for either. *)
Inductive recover_error : Type := InvalidPeriod | RecoveryFailed.

(** Modelled from the spec: the notebook has no code for the
    post-processing step, only the markdown cell that describes it; this
    follows the FactorRecoverer contract: [y = x^(r/2) mod N]. *)
Definition half_power (x N r : Z) : Z := x ^ (r / 2) mod N.

(** Modelled from the spec: FactorRecoverer step 3, [gcd(y - 1, N)]. *)
Definition d_plus (x N r : Z) : Z := Z.gcd (half_power x N r - 1) N.

(** Modelled from the spec: FactorRecoverer step 3, [gcd(y + 1, N)]. *)
Definition d_minus (x N r : Z) : Z := Z.gcd (half_power x N r + 1) N.

(** Modelled from the spec: a nontrivial divisor of [N], one other than
    1 and [N] (glossary). *)
Definition nontrivial (N d : Z) : Prop := 1 < d < N /\ (d | N).

(** Modelled from the spec: the test "neither 1 nor [N]" on a gcd with
    [N], which is a divisor of [N] already. *)
Definition nontrivialb (N d : Z) : bool := (1 <? d) && (d <? N).

(** Modelled from the spec: FactorRecoverer as a whole, which the
    notebook does not implement: odd or too small a period is
    [InvalidPeriod]; [y] congruent to 1 or -1 is [RecoveryFailed];
    otherwise the nontrivial ones among the two gcds, and
    [RecoveryFailed] when there is none. *)
Definition recover (x N r : Z) : recover_error + list Z :=
  if Z.odd r || (r <? 2) then inl InvalidPeriod
  else
    let y := half_power x N r in
    if (y =? (N - 1) mod N) || (y =? 1 mod N) then inl RecoveryFailed
    else
      match List.filter (nontrivialb N) [d_plus x N r; d_minus x N r] with
      | [] => inl RecoveryFailed
      | ds => inr ds
      end.

End Recover.

(** * Proofs *)

(** ** Divisibility and primes *)

Module NumberTheory.

Lemma divide_sub_mod a N : (N | a - a mod N).
Proof.
  exists (a / N). pose proof (Z.div_mod a N).
  destruct (Z.eq_dec N 0) as [->|]; [rewrite Z.mod_0_r; lia|lia].
Qed.

Lemma divisor_search n (k : nat) :
  (forall d, 1 < d < Z.of_nat k -> ~ (d | n)) \/
  (exists d, 1 < d < Z.of_nat k /\ (d | n)).
Proof.
  induction k as [|k [Hnone|(d & Hd & Hdiv)]].
  - left. intros d Hd. lia.
  - destruct (Z.BoolSpec_divide (Z.of_nat k) n) as [Hdiv|Hndiv].
    + destruct (decide (1 < Z.of_nat k)) as [Hk|Hk].
      * right. exists (Z.of_nat k). split; [lia|done].
      * left. intros d Hd. lia.
    + left. intros d Hd.
      destruct (Z.eq_dec d (Z.of_nat k)) as [->|]; [done|]. apply Hnone. lia.
  - right. exists d. split; [lia|done].
Qed.

Lemma prime_or_divisor n :
  1 < n -> Z.prime n \/ exists d, 1 < d < n /\ (d | n).
Proof.
  intros Hn. destruct (divisor_search n (Z.to_nat n)) as [H|(d & Hd & Hdiv)].
  - left. split; [done|]. intros d Hd. apply H. lia.
  - right. exists d. split; [lia|done].
Qed.

Lemma prime_dec n : Z.prime n \/ ~ Z.prime n.
Proof.
  destruct (Z.le_gt_cases n 1) as [Hn|Hn].
  - right. intros [H _]. lia.
  - destruct (prime_or_divisor n Hn) as [H|(d & Hd & Hdiv)]; [by left|].
    right. intros [_ H]. by apply (H d).
Qed.

Lemma prime_divisor_bounded (k : nat) n :
  1 < n <= Z.of_nat k -> exists p, Z.prime p /\ (p | n).
Proof.
  revert n. induction k as [|k IH]; intros n Hn; [lia|].
  destruct (prime_or_divisor n) as [Hp|(d & Hd & Hdiv)]; [lia| |].
  - exists n. done.
  - destruct (IH d) as (p & Hp & Hpd); [lia|].
    exists p. split; [done|]. by etransitivity.
Qed.

Lemma prime_divisor n : 1 < n -> exists p, Z.prime p /\ (p | n).
Proof. intros Hn. apply (prime_divisor_bounded (Z.to_nat n)). lia. Qed.

(** A number that is not prime has a prime divisor up to its square
    root. *)
Lemma small_prime_divisor n :
  1 < n -> ~ Z.prime n -> exists p, Z.prime p /\ (p | n) /\ p * p <= n.
Proof.
  intros Hn Hnp.
  destruct (prime_or_divisor n Hn) as [|(d & Hd & e & He)]; [done|].
  assert (1 < e) by nia.
  destruct (Z.le_ge_cases d e) as [Hle|Hle].
  - destruct (prime_divisor d) as (p & Hp & Hpd); [lia|].
    exists p. split; [done|]. split.
    + etransitivity; [done|]. exists e. lia.
    + pose proof (Z.prime_ge_2 p Hp).
      assert (p <= d) by (apply Z.divide_pos_le; [lia|done]). nia.
  - destruct (prime_divisor e) as (p & Hp & Hpe); [lia|].
    exists p. split; [done|]. split.
    + etransitivity; [done|]. exists d. lia.
    + pose proof (Z.prime_ge_2 p Hp).
      assert (p <= e) by (apply Z.divide_pos_le; [lia|done]). nia.
Qed.

Lemma divide_fact (m d : nat) :
  (1 <= d <= m)%nat -> (Z.of_nat d | Z.of_nat (fact m)).
Proof.
  induction m as [|m IH]; intros Hd; [lia|].
  change (fact (S m)) with (S m * fact m)%nat. rewrite Nat2Z.inj_mul.
  destruct (decide (d = S m)) as [->|Hne].
  - by apply Z.divide_mul_l.
  - apply Z.divide_mul_r, IH. lia.
Qed.

(** Euclid: there is a prime from any bound on. *)
Lemma prime_above n : exists p, Z.prime p /\ n <= p.
Proof.
  set (m := Z.to_nat n).
  pose proof (lt_O_fact m) as Hpos.
  destruct (prime_divisor (Z.of_nat (fact m) + 1)) as (p & Hp & Hdiv); [lia|].
  exists p. split; [done|].
  destruct (Z.le_gt_cases n p) as [|Hlt]; [done|exfalso].
  pose proof (Z.prime_ge_2 p Hp).
  assert (Hpf : (p | Z.of_nat (fact m))).
  { replace p with (Z.of_nat (Z.to_nat p)) by lia. apply divide_fact. lia. }
  assert (Hone : (p | 1)).
  { replace 1 with (Z.of_nat (fact m) + 1 - Z.of_nat (fact m)) by lia.
    by apply Z.divide_sub_r. }
  apply Z.divide_1_r_nonneg in Hone; lia.
Qed.

(** The first prime from a bound on. *)
Lemma next_prime q :
  exists p, Z.prime p /\ q <= p /\ forall m, q <= m < p -> ~ Z.prime m.
Proof.
  destruct (prime_above q) as (p0 & Hp0 & Hle).
  remember (Z.to_nat (p0 - q)) as k eqn:Hk.
  revert q Hle Hk. induction k as [|k IH]; intros q Hle Hk.
  - exists p0. split; [done|]. split; [done|]. intros m Hm. lia.
  - destruct (prime_dec q) as [Hq|Hq].
    + exists q. split; [done|]. split; [lia|]. intros m Hm. lia.
    + destruct (IH (q + 1)) as (p & Hp & Hqp & Hmin); [lia|lia|].
      exists p. split; [done|]. split; [lia|]. intros m Hm.
      destruct (Z.eq_dec m q) as [->|]; [done|]. apply Hmin. lia.
Qed.

Lemma odd_prime p : Z.prime p -> p <> 2 -> Z.odd p = true.
Proof.
  intros [Hp Hdiv] Hne. destruct (Z.odd p) eqn:E; [done|exfalso].
  apply (Hdiv 2); [lia|].
  rewrite <- Z.negb_even in E. apply negb_false_iff, Z.even_spec in E.
  destruct E as [c ->]. exists c. lia.
Qed.

Lemma odd_divisor p c : Z.odd c = true -> (p | c) -> Z.odd p = true.
Proof.
  intros Hc [e ->]. rewrite Z.odd_mul in Hc. by apply andb_true_iff in Hc as [_ ?].
Qed.

End NumberTheory.

(** ** The period finder *)

Module PeriodFacts.
Import Period NumberTheory.

Lemma loop_t_pow x N k : loop_t x N (S k) = x ^ (Z.of_nat k + 2) mod N.
Proof.
  induction k as [|k IH].
  - simpl. unfold body. f_equal. lia.
  - change (loop_t x N (S (S k))) with (body x N (loop_t x N (S k))).
    rewrite IH. unfold body. rewrite Zmult_mod_idemp_l. f_equal.
    replace (Z.of_nat (S k) + 2) with (Z.succ (Z.of_nat k + 2)) by lia.
    rewrite Z.pow_succ_r by lia. lia.
Qed.

Lemma loop_spec x N (HN : N <> 0) fuel : forall k n,
  match find_period_loop fuel x N (loop_t x N k) n with
  | Returned r =>
      exists j, (j <= fuel)%nat /\ r = n + Z.of_nat j /\
        loop_t x N (k + j) = 1 /\
        forall i, (i < j)%nat -> loop_t x N (k + i) <> 1
  | Raised _ => False
  | OutOfFuel => forall i, (i <= fuel)%nat -> loop_t x N (k + i) <> 1
  end.
Proof.
  induction fuel as [|fuel IH]; intros k n; simpl.
  - destruct (Z.eqb_spec (loop_t x N k) 1) as [E|E].
    + exists 0%nat. rewrite Nat.add_0_r. repeat split; [lia|lia|done|lia].
    + intros i Hi. replace i with 0%nat by lia. by rewrite Nat.add_0_r.
  - destruct (Z.eqb_spec (loop_t x N k) 1) as [E|E].
    + exists 0%nat. rewrite Nat.add_0_r. repeat split; [lia|lia|done|lia].
    + destruct (Z.eqb_spec N 0) as [|_]; [done|].
      specialize (IH (S k) (n + 1)). simpl in IH.
      destruct (find_period_loop fuel x N (body x N (loop_t x N k)) (n + 1))
        as [r|e|]; [|done|].
      * destruct IH as (j & Hj & -> & H1 & Hmin).
        exists (S j). rewrite Nat.add_succ_r. repeat split; [lia|lia|done|].
        intros [|i] Hi; [by rewrite Nat.add_0_r|].
        rewrite Nat.add_succ_r. apply (Hmin i). lia.
      * intros [|i] Hi; [by rewrite Nat.add_0_r|].
        rewrite Nat.add_succ_r. apply (IH i). lia.
Qed.

Example find_period_classical_7_15 :
  find_period_classical 10 7 15 = Returned 4.
Proof. reflexivity. Qed.

Example find_period_classical_zero_modulus :
  find_period_classical 10 2 0 = Raised ZeroDivisionError.
Proof. reflexivity. Qed.

Lemma power_cycle x N :
  1 < N -> Z.gcd x N = 1 -> exists r, 1 <= r <= N /\ x ^ r mod N = 1.
Proof.
  intros HN Hg.
  destruct (nat_pigeonhole (fun i => Z.to_nat (x ^ Z.of_nat i mod N))
              (S (Z.to_nat N)) (Z.to_nat N)) as (i & j & Hij & Heq).
  { lia. }
  { intros i _. pose proof (Z.mod_pos_bound (x ^ Z.of_nat i) N). lia. }
  exists (Z.of_nat (j - i)). split; [lia|].
  apply Z2Nat.inj in Heq;
    [|apply Z.mod_pos_bound; lia|apply Z.mod_pos_bound; lia].
  assert (Hdiv : (N | x ^ Z.of_nat i * (x ^ Z.of_nat (j - i) - 1))).
  { replace (x ^ Z.of_nat i * (x ^ Z.of_nat (j - i) - 1))
      with (x ^ Z.of_nat j - x ^ Z.of_nat i).
    - replace (x ^ Z.of_nat j - x ^ Z.of_nat i)
        with ((x ^ Z.of_nat j - x ^ Z.of_nat j mod N)
              - (x ^ Z.of_nat i - x ^ Z.of_nat i mod N)) by lia.
      apply Z.divide_sub_r; apply divide_sub_mod.
    - rewrite Z.mul_sub_distr_l, <- Z.pow_add_r by lia.
      replace (Z.of_nat i + Z.of_nat (j - i)) with (Z.of_nat j) by lia. lia. }
  apply Z.gauss in Hdiv.
  - destruct Hdiv as [c Hc].
    replace (x ^ Z.of_nat (j - i)) with (1 + c * N) by lia.
    rewrite Z.mod_add by lia. apply Z.mod_small. lia.
  - apply Z.coprime_pow_r; [lia|]. unfold Z.coprime. by rewrite Z.gcd_comm.
Qed.

Lemma power_not_one x N k :
  1 < N -> Z.gcd x N <> 1 -> 1 <= k -> x ^ k mod N <> 1.
Proof.
  intros HN Hg Hk E. apply Hg.
  pose proof (Z.gcd_nonneg x N) as Hnn.
  pose proof (Z.gcd_divide_l x N) as Hx.
  pose proof (Z.gcd_divide_r x N) as HNd.
  assert (Hone : (Z.gcd x N | 1)).
  { replace 1 with (x ^ k - N * (x ^ k / N)).
    - apply Z.divide_sub_r.
      + replace k with (Z.succ (k - 1)) by lia.
        rewrite Z.pow_succ_r by lia. by apply Z.divide_mul_l.
      + by apply Z.divide_mul_l.
    - pose proof (Z.div_mod (x ^ k) N). lia. }
  apply Z.divide_1_r_nonneg in Hone; lia.
Qed.

(** Some power [x ^ (k + 1)] with [1 <= k < N] is 1 modulo [N]: a loop
    guard that sees [t = 1] comes within [N - 1] executions of the body. *)
Lemma loop_t_hits_one x N :
  1 < N -> Z.gcd x N = 1 ->
  exists k, (1 <= k < Z.to_nat N)%nat /\ loop_t x N k = 1.
Proof.
  intros HN Hg. destruct (power_cycle x N HN Hg) as (r & Hr & E).
  destruct (Z.eq_dec r 1) as [->|Hr1].
  - exists 1%nat. split; [lia|]. rewrite loop_t_pow. simpl.
    rewrite Z.pow_1_r in E. rewrite Z.pow_2_r.
    rewrite Z.mul_mod, E by lia. apply Z.mod_small. lia.
  - exists (S (Z.to_nat (r - 2))). split; [lia|]. rewrite loop_t_pow.
    replace (Z.of_nat (Z.to_nat (r - 2)) + 2) with r by lia. done.
Qed.

(** What the function does on a base coprime to the modulus: the guard
    first sees [t = 1] after some [k] executions of the body, with
    [1 <= k < N], and the function returns [1 + k] whenever the fuel
    allows [k] executions. *)
Lemma find_period_classical_returns x N :
  2 <= x -> 1 < N -> Z.gcd x N = 1 ->
  exists k, (1 <= k < Z.to_nat N)%nat /\ loop_t x N k = 1 /\
    (forall i, (i < k)%nat -> loop_t x N i <> 1) /\
    forall fuel, (k <= fuel)%nat ->
      find_period_classical fuel x N = Returned (1 + Z.of_nat k).
Proof.
  intros Hx HN Hg. destruct (loop_t_hits_one x N HN Hg) as (k0 & Hk0 & E0).
  assert (Hleast : exists k, (1 <= k <= k0)%nat /\ loop_t x N k = 1 /\
            forall i, (i < k)%nat -> loop_t x N i <> 1).
  { pose proof (loop_spec x N ltac:(lia) k0 0%nat 1) as Hspec.
    simpl loop_t in Hspec.
    destruct (find_period_loop k0 x N x 1) as [r|e|]; [|done|].
    - destruct Hspec as (j & Hj & _ & H1 & Hmin). simpl in H1, Hmin.
      exists j. split_and!; try done; try lia.
      destruct j; [simpl in H1; lia|lia].
    - exfalso. apply (Hspec k0); [lia|done]. }
  destruct Hleast as (k & Hk & E & Hmin).
  exists k. split_and!; try done; try lia.
  intros fuel Hfuel. unfold find_period_classical.
  pose proof (loop_spec x N ltac:(lia) fuel 0%nat 1) as Hspec.
  simpl loop_t in Hspec.
  destruct (find_period_loop fuel x N x 1) as [r|e|]; [|done|].
  - destruct Hspec as (j & Hj & -> & H1 & Hminj). simpl in H1, Hminj.
    destruct (lt_eq_lt_dec j k) as [[Hlt| ->]|Hgt]; [|done|].
    + exfalso. by apply (Hmin j).
    + exfalso. by apply (Hminj k).
  - exfalso. apply (Hspec k); [lia|done].
Qed.

(** C1 (amended): for every base [x >= 2] coprime to a modulus [N > 1]
    with [x mod N <> 1] -- in particular for every [2 <= x < N] --
    [find_period_classical(x, N)] returns, within [N] executions of the
    loop body, the smallest [r >= 1] with [x ^ r mod N = 1]: the
    returned [r] satisfies [x ^ r mod N = 1] and no [k] with
    [1 <= k < r] does. *)
Theorem find_period_classical_least x N :
  2 <= x -> 1 < N -> Z.gcd x N = 1 -> x mod N <> 1 ->
  exists r,
    (forall fuel, (Z.to_nat N <= fuel)%nat ->
       find_period_classical fuel x N = Returned r) /\
    least_power_from 1 x N r.
Proof.
  intros Hx HN Hg Hx1.
  destruct (find_period_classical_returns x N Hx HN Hg)
    as (k & Hk & E & Hmin & Hrun).
  exists (1 + Z.of_nat k). split; [intros fuel Hfuel; apply Hrun; lia|].
  split; [lia|].
  destruct k as [|k]; [lia|]. rewrite loop_t_pow in E. split.
  - replace (1 + Z.of_nat (S k)) with (Z.of_nat k + 2) by lia. done.
  - intros e He. destruct (Z.eq_dec e 1) as [->|Hne].
    + by rewrite Z.pow_1_r.
    + specialize (Hmin (S (Z.to_nat (e - 2))) ltac:(lia)).
      rewrite loop_t_pow in Hmin.
      replace (Z.of_nat (Z.to_nat (e - 2)) + 2) with e in Hmin by lia. done.
Qed.

Lemma find_period_classical_least_witness :
  exists r,
    (forall fuel, (Z.to_nat 15 <= fuel)%nat ->
       find_period_classical fuel 2 15 = Returned r) /\
    least_power_from 1 2 15 r.
Proof.
  apply (find_period_classical_least 2 15); [lia|lia|reflexivity|].
  vm_compute. discriminate.
Defined.

(** Without the side condition the result is still the least exponent
    from 2 on: the guard never looks at [x ^ 1 mod N]. *)
Lemma find_period_classical_least_from_2 x N :
  2 <= x -> 1 < N -> Z.gcd x N = 1 ->
  exists r,
    (forall fuel, (Z.to_nat N <= fuel)%nat ->
       find_period_classical fuel x N = Returned r) /\
    least_power_from 2 x N r.
Proof.
  intros Hx HN Hg.
  destruct (find_period_classical_returns x N Hx HN Hg)
    as (k & Hk & E & Hmin & Hrun).
  exists (1 + Z.of_nat k). split; [intros fuel Hfuel; apply Hrun; lia|].
  split; [lia|].
  destruct k as [|k]; [lia|]. rewrite loop_t_pow in E. split.
  - replace (1 + Z.of_nat (S k)) with (Z.of_nat k + 2) by lia. done.
  - intros e He. specialize (Hmin (S (Z.to_nat (e - 2))) ltac:(lia)).
    rewrite loop_t_pow in Hmin.
    replace (Z.of_nat (Z.to_nat (e - 2)) + 2) with e in Hmin by lia. done.
Qed.

(** C1 as stated, with no bound on [x] from above, fails: at [x = 16],
    [N = 15] the base is congruent to 1, so the smallest exponent is 1,
    but the loop multiplies once before it reduces and returns 2. *)
Lemma find_period_classical_not_least_above_modulus :
  ~ (forall x N, 2 <= x -> Z.gcd x N = 1 -> 1 < N ->
       exists fuel r, find_period_classical fuel x N = Returned r /\
         least_power_from 1 x N r).
Proof.
  intros H. destruct (H 16 15) as (fuel & r & Hrun & Hlo & Hpow & Hmin).
  - lia.
  - reflexivity.
  - lia.
  - destruct fuel as [|fuel]; [discriminate|].
    assert (r = 2) as -> by (destruct fuel; vm_compute in Hrun; congruence).
    apply (Hmin 1); [lia|reflexivity].
Qed.

(** C3: for every [x >= 2] and [N > 1] with [gcd(x, N) = 1] the loop of
    [find_period_classical(x, N)] terminates: the guard sees [t = 1]
    after some [k <= N] executions of the body, and the function returns
    as soon as the fuel allows [k] of them. *)
Theorem find_period_classical_terminates x N :
  2 <= x -> 1 < N -> Z.gcd x N = 1 ->
  exists k, (k <= Z.to_nat N)%nat /\ loop_t x N k = 1 /\
    forall fuel, (k <= fuel)%nat ->
      find_period_classical fuel x N = Returned (1 + Z.of_nat k).
Proof.
  intros Hx HN Hg.
  destruct (find_period_classical_returns x N Hx HN Hg)
    as (k & Hk & E & _ & Hrun).
  exists k. split_and!; [lia|done|done].
Qed.

Lemma find_period_classical_terminates_witness :
  exists k, (k <= Z.to_nat 7)%nat /\ loop_t 3 7 k = 1 /\
    forall fuel, (k <= fuel)%nat ->
      find_period_classical fuel 3 7 = Returned (1 + Z.of_nat k).
Proof.
  apply (find_period_classical_terminates 3 7); [lia|lia|reflexivity].
Defined.

(** C4: for every [x >= 2] and [N > 1] with [gcd(x, N) <> 1], no power
    [x ^ k mod N] with [k >= 1] equals 1, so the loop state [t] of
    [find_period_classical(x, N)] is never 1 at the guard and the loop
    never exits, whatever the fuel. *)
Theorem find_period_classical_shared_factor x N :
  2 <= x -> 1 < N -> Z.gcd x N <> 1 ->
  (forall k, 1 <= k -> x ^ k mod N <> 1) /\
  (forall k, loop_t x N k <> 1) /\
  (forall fuel, find_period_classical fuel x N = OutOfFuel).
Proof.
  intros Hx HN Hg.
  assert (Ht : forall k, loop_t x N k <> 1).
  { intros [|k]; [simpl; lia|]. rewrite loop_t_pow.
    apply power_not_one; (done || lia). }
  split; [|split; [done|]].
  - intros k Hk. by apply power_not_one.
  - intros fuel. pose proof (loop_spec x N ltac:(lia) fuel 0%nat 1) as Hspec.
    unfold find_period_classical. simpl loop_t in Hspec.
    destruct (find_period_loop fuel x N x 1) as [r|e|]; [|done|done].
    destruct Hspec as (j & _ & _ & H1 & _). by apply Ht in H1.
Qed.

Lemma find_period_classical_shared_factor_witness :
  (forall k, 1 <= k -> 6 ^ k mod 15 <> 1) /\
  (forall k, loop_t 6 15 k <> 1) /\
  (forall fuel, find_period_classical fuel 6 15 = OutOfFuel).
Proof.
  apply (find_period_classical_shared_factor 6 15); [lia|lia|].
  vm_compute. discriminate.
Defined.

(** C8: [find_period_classical(2, 15)] returns 4 (after three
    executions of the body; 4 is the least exponent); with
    [y = 2^2 mod 15 = 4], [gcd(y - 1, 15) = 3] and [gcd(y + 1, 15) = 5],
    the factor pair (3, 5) of 15. *)
Theorem find_period_classical_2_15 :
  (forall extra, find_period_classical (3 + extra) 2 15 = Returned 4) /\
  (forall k, 1 <= k < 4 -> 2 ^ k mod 15 <> 1) /\
  2 ^ (4 / 2) mod 15 = 4 /\
  Z.gcd (4 - 1) 15 = 3 /\ Z.gcd (4 + 1) 15 = 5 /\ 3 * 5 = 15.
Proof.
  split; [|split]; [| |done].
  - intros [|extra]; reflexivity.
  - intros k Hk. assert (k = 1 \/ k = 2 \/ k = 3) as [->|[->| ->]] by lia;
      vm_compute; discriminate.
Qed.

(** C9: [find_period_classical(1, N)] returns 1 for every [N], also
    [N <= 1] and [N = 0]: it does so with fuel 0, that is without an
    execution of the loop body, the only place with a modulo. *)
Theorem find_period_classical_base_one N :
  find_period_classical 0 1 N = Returned 1 /\
  forall fuel, find_period_classical fuel 1 N = Returned 1.
Proof. split; [reflexivity|]. intros [|fuel]; reflexivity. Qed.

End PeriodFacts.

(** ** The sieve *)

Module SieveFacts.
Import Sieve NumberTheory.

Lemma odd_gap a b : Z.odd a = true -> Z.odd b = true -> a < b -> a + 2 <= b.
Proof.
  intros [a' ->]%Z.odd_spec [b' ->]%Z.odd_spec. lia.
Qed.

Lemma odd_plus_2 a : Z.odd (a + 2) = Z.odd a.
Proof. rewrite Z.odd_add. change (Z.odd 2) with false. by destruct (Z.odd a). Qed.

Lemma land_1_even x : (Z.land x 1 =? 0) = negb (Z.odd x).
Proof.
  change 1 with (Z.ones 1) at 1. rewrite Z.land_ones by lia.
  change (2 ^ 1) with 2. rewrite Zmod_odd. by destruct (Z.odd x).
Qed.

Lemma tracked_or_even_false D x :
  tracked_or_even D x = false <-> D !! x = None /\ Z.odd x = true.
Proof.
  unfold tracked_or_even. rewrite land_1_even, orb_false_iff, negb_false_iff.
  rewrite bool_decide_eq_false, <- eq_None_not_Some. done.
Qed.

Lemma tracked_or_even_true D x :
  tracked_or_even D x = true -> Z.odd x = true -> is_Some (D !! x).
Proof.
  unfold tracked_or_even. rewrite land_1_even. intros H Hodd.
  rewrite Hodd, orb_false_r in H. by apply bool_decide_eq_true in H.
Qed.

Lemma next_multiple_spec fuel D p : forall x y,
  next_multiple fuel D p x = Some y ->
  exists j : nat, y = x + Z.of_nat j * p /\
    tracked_or_even D y = false /\
    forall i : nat, (i < j)%nat -> tracked_or_even D (x + Z.of_nat i * p) = true.
Proof.
  induction fuel as [|fuel IH]; intros x y; simpl;
    destruct (tracked_or_even D x) eqn:E; try discriminate.
  - intros [= <-]. exists 0%nat. split; [lia|]. split; [done|]. lia.
  - intros (j & -> & Hy & Hskip)%IH. exists (S j). split; [lia|].
    split; [done|]. intros [|i] Hi.
    + by rewrite Z.add_0_r.
    + replace (x + Z.of_nat (S i) * p) with (x + p + Z.of_nat i * p) by lia.
      apply Hskip. lia.
  - intros [= <-]. exists 0%nat. split; [lia|]. split; [done|]. lia.
Qed.

Lemma next_multiple_reaches D p (j : nat) : forall x fuel,
  tracked_or_even D (x + Z.of_nat j * p) = false -> (j <= fuel)%nat ->
  exists y, next_multiple fuel D p x = Some y.
Proof.
  induction j as [|j IH]; intros x fuel Hj Hfuel.
  - rewrite Z.add_0_r in Hj. exists x. destruct fuel; simpl; by rewrite Hj.
  - destruct fuel as [|fuel]; [lia|]. simpl.
    destruct (tracked_or_even D x) eqn:E; [|by exists x].
    apply IH; [|lia].
    by replace (x + p + Z.of_nat j * p) with (x + Z.of_nat (S j) * p) by lia.
Qed.

Lemma next_multiple_mono D p fuel : forall fuel' x y,
  next_multiple fuel D p x = Some y -> (fuel <= fuel')%nat ->
  next_multiple fuel' D p x = Some y.
Proof.
  induction fuel as [|fuel IH]; intros fuel' x y; simpl;
    destruct (tracked_or_even D x) eqn:E; try discriminate.
  - intros [= <-] _. destruct fuel'; simpl; by rewrite E.
  - intros Hrun Hle. destruct fuel' as [|fuel']; [lia|]. simpl. rewrite E.
    apply IH; [done|lia].
  - intros [= <-] _. destruct fuel'; simpl; by rewrite E.
Qed.

(** Entered at [p + q] for a multiple [q] of [p > 0], the inner loop
    exits with the next odd multiple of [p] after [q] that is not a key
    of [D]: every odd multiple in between is a key. *)
Lemma next_multiple_next_untracked fuel D p q x :
  0 < p -> (p | q) ->
  next_multiple fuel D p (p + q) = Some x ->
  q < x /\ (p | x) /\ Z.odd x = true /\ D !! x = None /\
  forall m, q < m < x -> (p | m) -> Z.odd m = true -> is_Some (D !! m).
Proof.
  intros Hp Hpq (j & Hx & Hfree & Hskipped)%next_multiple_spec.
  apply tracked_or_even_false in Hfree as [Hxfree Hxodd].
  split_and!; try done.
  - nia.
  - subst x. apply Z.divide_add_r; [apply Z.divide_add_r; [apply Z.divide_refl|done]|].
    by apply Z.divide_mul_r.
  - intros m Hm [e He] Hmodd. destruct Hpq as [e0 He0].
    assert (e0 < e) by nia.
    assert (e - e0 - 1 < Z.of_nat j) by nia.
    assert (Hi : (Z.to_nat (e - e0 - 1) < j)%nat) by lia.
    specialize (Hskipped _ Hi).
    replace (Z.of_nat (Z.to_nat (e - e0 - 1))) with (e - e0 - 1)
      in Hskipped by lia.
    replace (p + q + (e - e0 - 1) * p) with m in Hskipped by lia.
    by apply tracked_or_even_true.
Qed.

Lemma keys_bounded (D : gmap Z Z) : exists M, forall k, is_Some (D !! k) -> k < M.
Proof.
  induction D as [|k v D _ [M HM]] using map_ind.
  - exists 0. intros k [v Hv]. by rewrite lookup_empty in Hv.
  - exists (Z.max M (k + 1)). intros k' [v' Hv'].
    rewrite lookup_insert in Hv'. case_decide as E.
    + lia.
    + pose proof (HM k' (mk_is_Some _ _ Hv')). lia.
Qed.

(** The inner loop ends: the keys of [D] are bounded, and beyond them
    one of two consecutive multiples of an odd [p] is odd. *)
Lemma next_multiple_terminates D p x :
  0 < p -> Z.odd p = true ->
  exists fuel0 y, forall fuel, (fuel0 <= fuel)%nat ->
    next_multiple fuel D p x = Some y.
Proof.
  intros Hp Hodd.
  cut (exists fuel0 y, next_multiple fuel0 D p x = Some y).
  { intros (fuel0 & y & Hrun). exists fuel0, y. intros fuel Hle.
    by eapply next_multiple_mono. }
  destruct (keys_bounded D) as [M HM].
  set (j := Z.to_nat (M - x)).
  assert (Hfar : forall i : nat, (j <= i)%nat -> D !! (x + Z.of_nat i * p) = None).
  { intros i Hi. apply eq_None_not_Some. intros Hsome%HM. nia. }
  destruct (Z.odd (x + Z.of_nat j * p)) eqn:E.
  - exists j. apply (next_multiple_reaches D p j); [|done].
    apply tracked_or_even_false. split; [apply Hfar; lia|done].
  - exists (S j). apply (next_multiple_reaches D p (S j)); [|done].
    apply tracked_or_even_false. split; [apply Hfar; lia|].
    replace (x + Z.of_nat (S j) * p) with (x + Z.of_nat j * p + p) by lia.
    rewrite Z.odd_add, E, Hodd. done.
Qed.

Section Branches.
Context (D : gmap Z Z) (q : Z) (Hinv : sieve_inv D q).

Lemma candidate_bounds : Z.odd q = true /\ 3 <= q.
Proof. by destruct Hinv. Qed.

(** An untracked candidate is prime: otherwise its least prime factor
    [p] has [p * p <= q], and the entry of [p] sits at [q] or has passed
    over [q] only because [q] is tracked. *)
Lemma untracked_prime : D !! q = None -> Z.prime q.
Proof.
  intros Hq. destruct candidate_bounds as [Hodd Hge].
  destruct (prime_dec q) as [|Hnp]; [done|exfalso].
  destruct (small_prime_divisor q) as (p & Hp & Hdiv & Hsq); [lia|done|].
  pose proof (Z.prime_ge_2 p Hp).
  destruct (inv_track D q Hinv p) as (c & Hc & Hskip);
    [done|by eapply odd_divisor|nia|].
  destruct (inv_entry D q Hinv c p Hc) as (_ & _ & _ & Hqc & _).
  destruct (Z.eq_dec c q) as [->|]; [congruence|].
  destruct (Hskip q) as [v Hv]; [lia|done|done|done|congruence].
Qed.

Lemma tracked_composite p : D !! q = Some p -> ~ Z.prime q.
Proof.
  intros Hq [_ Hnd].
  destruct (inv_entry D q Hinv q p Hq) as (Hp & _ & Hlt & _ & _ & Hdiv & _).
  pose proof (Z.prime_ge_2 p Hp). apply (Hnd p); [lia|done].
Qed.

Lemma square_untracked : Z.prime q -> D !! (q * q) = None.
Proof.
  intros Hq. apply eq_None_not_Some. intros [p Hp].
  destruct (inv_entry D q Hinv _ p Hp) as (Hpp & _ & Hlt & _ & _ & Hdiv & _).
  apply Z.divide_prime_mul in Hdiv; [|done].
  assert (p = q) by (destruct Hdiv; by apply Z.divide_prime_prime). lia.
Qed.

(** The prime branch: [D[q*q] = q; yield q]. *)
Lemma prime_branch_inv :
  D !! q = None -> sieve_inv (<[q * q := q]> D) (q + 2).
Proof.
  intros Hq. destruct candidate_bounds as [Hodd Hge].
  pose proof (untracked_prime Hq) as Hprime.
  pose proof (square_untracked Hprime) as Hsq.
  split.
  - rewrite odd_plus_2. split; [done|lia].
  - intros c p. rewrite lookup_insert. case_decide as E.
    + intros [= <-]. subst c. rewrite Z.odd_mul, Hodd.
      split_and!; try done; try lia; try nia. by apply Z.divide_mul_l.
    + intros Hc.
      destruct (inv_entry D q Hinv c p Hc) as (? & ? & ? & ? & ? & ? & ?).
      split_and!; try done; try lia.
      apply odd_gap; [done|done|].
      destruct (Z.eq_dec c q) as [->|]; [congruence|lia].
  - intros c c' p. rewrite !lookup_insert.
    case_decide as E; case_decide as E'; intros Hc Hc'.
    + congruence.
    + injection Hc as <-.
      destruct (inv_entry D q Hinv c' q Hc') as (_ & _ & ? & _). lia.
    + injection Hc' as <-.
      destruct (inv_entry D q Hinv c q Hc) as (_ & _ & ? & _). lia.
    + by eapply (inv_once D q Hinv).
  - intros p Hp Hpodd Hlt. destruct (Z.eq_dec p q) as [->|Hne].
    + exists (q * q). rewrite lookup_insert_eq. split; [done|].
      intros m Hm _ _ Hmsq. lia.
    + assert (p < q).
      { destruct (Z.eq_dec p (q + 1)) as [->|]; [|lia].
        rewrite Z.odd_add, Hodd in Hpodd. done. }
      destruct (inv_track D q Hinv p) as (c & Hc & Hskip); [done..|].
      exists c. split.
      * rewrite lookup_insert_ne; [done|]. intros <-. congruence.
      * intros m Hm Hmodd Hdiv Hmsq.
        destruct (Hskip m) as [v Hv]; [lia|done..|].
        rewrite lookup_insert. case_decide; eauto.
Qed.

(** The composite branch: the entry of [q] moves to the next odd
    multiple of its prime that no other prime tracks. *)
Lemma composite_branch_inv fuel p x :
  D !! q = Some p ->
  next_multiple fuel (delete q D) p (p + q) = Some x ->
  sieve_inv (<[x := p]> (delete q D)) (q + 2).
Proof.
  intros Hq Hrun. destruct candidate_bounds as [Hodd Hge].
  destruct (inv_entry D q Hinv q p Hq)
    as (Hp & Hpodd & Hplt & _ & _ & Hpq & Hpsq).
  pose proof (Z.prime_ge_2 p Hp) as Hp2.
  destruct (next_multiple_next_untracked fuel _ p q x ltac:(lia) Hpq Hrun)
    as (Hqx & Hpx & Hxodd & Hxfree & Hskipped).
  assert (Hxq : q + 2 <= x) by (by apply odd_gap).
  split.
  - rewrite odd_plus_2. split; [done|lia].
  - intros c p'. rewrite lookup_insert. case_decide as E.
    + intros [= <-]. subst c. split_and!; try done; lia.
    + rewrite lookup_delete. case_decide as E'; [done|]. intros Hc.
      destruct (inv_entry D q Hinv c p' Hc) as (? & ? & ? & ? & ? & ? & ?).
      split_and!; try done; try lia. apply odd_gap; [done|done|lia].
  - intros c c' p'. rewrite !lookup_insert, !lookup_delete.
    repeat case_decide; intros Hc Hc'; try done; try congruence.
    + injection Hc as <-. exfalso.
      pose proof (inv_once D q Hinv q c' p Hq Hc'). congruence.
    + injection Hc' as <-. exfalso.
      pose proof (inv_once D q Hinv q c p Hq Hc). congruence.
    + by eapply (inv_once D q Hinv).
  - intros p' Hp' Hp'odd Hlt.
    assert (p' < q).
    { destruct (Z.eq_dec p' (q + 1)) as [->|].
      - rewrite Z.odd_add, Hodd in Hp'odd. done.
      - destruct (Z.eq_dec p' q) as [->|]; [|lia].
        exfalso. by eapply tracked_composite. }
    destruct (Z.eq_dec p' p) as [->|Hne].
    + exists x. rewrite lookup_insert_eq. split; [done|].
      intros m Hm Hmodd Hdiv _.
      destruct (Hskipped m) as [v Hv]; [lia|done|done|].
      rewrite lookup_insert. case_decide; eauto.
    + destruct (inv_track D q Hinv p') as (c & Hc & Hskip); [done..|].
      assert (c <> q) by congruence.
      assert (is_Some (delete q D !! c)) as Hsome
        by (rewrite lookup_delete_ne by done; eauto).
      exists c. split.
      * rewrite lookup_insert_ne; [by rewrite lookup_delete_ne|].
        intros <-. rewrite Hxfree in Hsome. by destruct Hsome.
      * intros m Hm Hmodd Hdiv Hmsq.
        destruct (Hskip m) as [v Hv]; [lia|done..|].
        rewrite lookup_insert. case_decide; [eauto|].
        rewrite lookup_delete_ne by lia. eauto.
Qed.

(** One iteration of the [for] loop from a state in the invariant: with
    enough fuel it completes, yields [q] exactly when [q] is prime, and
    re-establishes the invariant for the next candidate. *)
Lemma loop_body_correct :
  exists fuel0 D' out,
    (forall fuel, (fuel0 <= fuel)%nat -> loop_body fuel D q = Some (D', out)) /\
    sieve_inv D' (q + 2) /\
    (Z.prime q /\ out = Some q \/ ~ Z.prime q /\ out = None).
Proof.
  unfold loop_body. destruct (D !! q) as [p|] eqn:Hq.
  - destruct (inv_entry D q Hinv q p Hq) as (Hp & Hpodd & _).
    pose proof (Z.prime_ge_2 p Hp).
    destruct (next_multiple_terminates (delete q D) p (p + q))
      as (fuel0 & x & Hrun); [lia|done|].
    exists fuel0, (<[x := p]> (delete q D)), None. split_and!.
    + intros fuel Hle. by rewrite (Hrun fuel Hle).
    + eapply composite_branch_inv; [done|]. by apply (Hrun fuel0).
    + right. split; [by eapply tracked_composite|done].
  - exists 0%nat, (<[q * q := q]> D), (Some q). split_and!.
    + done.
    + by apply prime_branch_inv.
    + left. split; [by apply untracked_prime|done].
Qed.

End Branches.

Example get_primes_sieve_30 :
  get_primes_sieve 30 30 = Some [2; 3; 5; 7; 11; 13; 17; 19; 23; 29].
Proof. vm_compute. reflexivity. Qed.

Example get_primes_sieve_3 : get_primes_sieve 3 3 = Some [2].
Proof. vm_compute. reflexivity. Qed.

(** After the candidates 3 to 25 the dictionary tracks 27 for 3, 35 for
    5 and the squares of the later primes. *)
Example loop_head_12 :
  (fun st => (map_to_list (dict st), cand st, yielded st)) <$> loop_head 3 12
  = Some ([(27, 3); (35, 5); (121, 11); (361, 19);
           (169, 13); (529, 23); (49, 7); (289, 17)],
          27, [2; 3; 5; 7; 11; 13; 17; 19; 23]).
Proof. vm_compute. reflexivity. Qed.

Lemma initial_inv : sieve_inv ∅ 3.
Proof.
  split.
  - done.
  - intros c p. by rewrite lookup_empty.
  - intros c c' p. by rewrite lookup_empty.
  - intros p Hp Hodd Hlt. pose proof (Z.prime_ge_2 p Hp).
    assert (p = 2) as -> by lia. done.
Qed.

(** Resuming the generator runs the loop up to the first prime from the
    candidate on, and yields it. *)
Lemma resume_correct (k : nat) : forall D q P,
  sieve_inv D q -> Z.prime P -> q <= P -> P - q <= Z.of_nat k ->
  (forall m, q <= m < P -> ~ Z.prime m) ->
  exists fuel0 D',
    (forall fuel, (fuel0 <= fuel)%nat ->
       resume fuel D q = Some (P, Suspended D' (P + 2))) /\
    sieve_inv D' (P + 2).
Proof.
  induction k as [|k IH]; intros D q P Hinv HP Hle Hk Hleast;
    destruct (loop_body_correct D q Hinv)
      as (fuel1 & D1 & out & Hbody & Hinv1 & [[Hq ->]|[Hq ->]]).
  - assert (P = q) as ->.
    { destruct (Z.eq_dec P q); [done|]. exfalso. apply (Hleast q); [lia|done]. }
    exists (S fuel1), D1. split; [|done].
    intros [|fuel] Hfuel; [lia|]. simpl. by rewrite Hbody by lia.
  - assert (P = q) as -> by lia. done.
  - assert (P = q) as ->.
    { destruct (Z.eq_dec P q); [done|]. exfalso. apply (Hleast q); [lia|done]. }
    exists (S fuel1), D1. split; [|done].
    intros [|fuel] Hfuel; [lia|]. simpl. by rewrite Hbody by lia.
  - destruct (candidate_bounds D q Hinv) as [Hodd Hge].
    assert (P <> q) by congruence.
    assert (q + 2 <= P).
    { apply odd_gap; [done| |lia]. apply odd_prime; [done|lia]. }
    destruct (IH D1 (q + 2) P) as (fuel2 & D' & Hres & Hinv');
      [done|done|lia|lia| |].
    { intros m Hm. apply Hleast. lia. }
    exists (S (fuel1 `max` fuel2)), D'. split; [|done].
    intros [|fuel] Hfuel; [lia|]. simpl. rewrite Hbody by lia.
    apply Hres. lia.
Qed.

(** [takewhile] over a suspended generator collects, in order, the
    primes from the candidate up to the bound. *)
Lemma takewhile_correct n (k : nat) : forall D q,
  sieve_inv D q -> n - q <= Z.of_nat k ->
  exists fuel0 L,
    (forall fuel, (fuel0 <= fuel)%nat ->
       takewhile fuel (fun p => p <? n) (Suspended D q) = Some L) /\
    StronglySorted Z.lt L /\
    forall p, In p L <-> Z.prime p /\ q <= p < n.
Proof.
  induction k as [|k IH]; intros D q Hinv Hk;
    destruct (next_prime q) as (P & HP & HqP & Hleast);
    destruct (resume_correct (Z.to_nat (P - q)) D q P)
      as (fuel1 & D' & Hres & Hinv'); try done; try lia;
    destruct (Z.ltb_spec P n) as [HPn|HPn]; try lia.
  1,3: exists (S fuel1), []; split_and!;
    [ intros [|fuel] Hfuel; [lia|]; simpl; rewrite Hres by lia;
      by destruct (Z.ltb_spec P n); [lia|]
    | constructor
    | intros p; split; [done|]; intros [Hp Hrange];
      apply (Hleast p); [lia|done] ].
  destruct (candidate_bounds D q Hinv) as [Hodd Hge].
  assert (HPodd : Z.odd P = true) by (apply odd_prime; [done|lia]).
  destruct (IH D' (P + 2)) as (fuel2 & L & Htake & Hsorted & Hmem); [done|lia|].
  exists (S (fuel1 `max` fuel2)), (P :: L). split_and!.
  - intros [|fuel] Hfuel; [lia|]. simpl. rewrite Hres by lia.
    destruct (Z.ltb_spec P n); [|lia]. by rewrite Htake by lia.
  - constructor; [done|]. apply List.Forall_forall. intros p [_ ?]%Hmem. lia.
  - intros p. simpl. rewrite Hmem. split.
    + intros [<-|[Hp Hrange]]; (split; [done|lia]).
    + intros [Hp Hrange]. destruct (Z.eq_dec P p) as [|Hne]; [by left|right].
      split; [done|]. split; [|lia].
      destruct (Z.lt_ge_cases p P) as [Hlt|Hgt].
      * exfalso. apply (Hleast p); [lia|done].
      * apply odd_gap; [done| |lia]. apply odd_prime; [done|lia].
Qed.

(** The bounded prime list, for every bound. *)
Lemma get_primes_sieve_spec n :
  exists fuel0 L,
    (forall fuel, (fuel0 <= fuel)%nat -> get_primes_sieve fuel n = Some L) /\
    StronglySorted Z.lt L /\
    (forall p, In p L <-> Z.prime p /\ p < n).
Proof.
  unfold get_primes_sieve. destruct (Z.ltb_spec 2 n) as [Hn|Hn].
  - destruct (takewhile_correct n (Z.to_nat (n - 3)) ∅ 3 initial_inv)
      as (fuel0 & L & Htake & Hsorted & Hmem); [lia|].
    exists (S fuel0), (2 :: L). split_and!.
    + intros [|fuel] Hfuel; [lia|]. simpl.
      destruct (Z.ltb_spec 2 n); [|lia]. by rewrite Htake by lia.
    + constructor; [done|]. apply List.Forall_forall. intros p [_ ?]%Hmem. lia.
    + intros p. simpl. rewrite Hmem. split.
      * intros [<-|[Hp Hrange]]; [split; [apply Z.prime_2|lia]|split; [done|lia]].
      * intros [Hp Hrange]. pose proof (Z.prime_ge_2 p Hp).
        destruct (Z.eq_dec 2 p); [by left|right]. split; [done|lia].
  - exists 1%nat, []. split_and!.
    + intros [|fuel] Hfuel; [lia|]. simpl. by destruct (Z.ltb_spec 2 n); [lia|].
    + constructor.
    + intros p. split; [done|]. intros [Hp Hlt].
      pose proof (Z.prime_ge_2 p Hp). lia.
Qed.

(** ** The loop-head states of the generator *)

Lemma step_inv fuel st st' :
  sieve_inv (dict st) (cand st) -> yielded_primes st ->
  step fuel st = Some st' ->
  sieve_inv (dict st') (cand st') /\ yielded_primes st'.
Proof.
  destruct st as [D q ys]. unfold step, loop_body, yielded_primes. simpl.
  intros Hinv Hys. destruct (candidate_bounds D q Hinv) as [Hodd Hge].
  assert (Hsucc : forall p, Z.prime p -> p < q + 2 -> p < q \/ p = q).
  { intros p Hp Hlt. destruct (Z.eq_dec p (q + 1)) as [->|]; [|lia].
    exfalso. assert (Hpo : Z.odd (q + 1) = true) by (apply odd_prime; [done|lia]).
    rewrite Z.odd_add, Hodd in Hpo. done. }
  destruct (D !! q) as [p0|] eqn:Hq.
  - destruct (next_multiple fuel (delete q D) p0 (p0 + q)) as [x|] eqn:Hx;
      [|done].
    intros [= <-]. simpl. split; [by eapply composite_branch_inv|].
    intros p. rewrite app_nil_r, Hys. split.
    + intros [Hp Hlt]. split; [done|lia].
    + intros [Hp Hlt]. split; [done|].
      destruct (Hsucc p Hp Hlt) as [ ? | -> ]; [done|].
      exfalso. by eapply tracked_composite.
  - intros [= <-]. simpl. split; [by apply prime_branch_inv|].
    intros p. rewrite in_app_iff, Hys. simpl. split.
    + intros [[Hp Hlt]|[<-|[ ]]]; [split; [done|lia]|].
      split; [by apply (untracked_prime D)|lia].
    + intros [Hp Hlt]. destruct (Hsucc p Hp Hlt) as [ ? | -> ]; [by left|].
      right. by left.
Qed.

Lemma loop_head_inv fuel k : forall st,
  loop_head fuel k = Some st ->
  sieve_inv (dict st) (cand st) /\ yielded_primes st.
Proof.
  induction k as [|k IH]; intros st; simpl.
  - intros [= <-]. split; [apply initial_inv|].
    intros p. simpl. split.
    + intros [<-|[ ]]. split; [apply Z.prime_2|lia].
    + intros [Hp Hlt]. pose proof (Z.prime_ge_2 p Hp). left. lia.
  - destruct (loop_head fuel k) as [st0|]; [|done].
    destruct (IH st0 eq_refl) as [Hinv Hys]. by apply step_inv.
Qed.

(** The loop head is reached after any number of iterations: no
    iteration gets stuck in the inner loop. *)
Lemma loop_head_reached k :
  exists fuel0 st, forall fuel, (fuel0 <= fuel)%nat -> loop_head fuel k = Some st.
Proof.
  induction k as [|k (fuel1 & st & Hrun)].
  - exists 0%nat, initial. done.
  - destruct (loop_head_inv fuel1 k st (Hrun fuel1 ltac:(lia))) as [Hinv _].
    destruct (loop_body_correct _ _ Hinv) as (fuel2 & D' & out & Hbody & _).
    exists (fuel1 `max` fuel2)%nat. eexists. intros fuel Hfuel. simpl.
    rewrite Hrun by lia. unfold step. rewrite Hbody by lia. done.
Qed.

Lemma head_invariant_holds st :
  sieve_inv (dict st) (cand st) -> yielded_primes st -> head_invariant st.
Proof.
  intros Hinv Hys. destruct (candidate_bounds _ _ Hinv) as [Hodd Hge]. split.
  - intros c p Hc.
    destruct (inv_entry _ _ Hinv c p Hc) as (Hp & Hpo & Hlt & Hqc & Hco & Hdiv & _).
    pose proof (Z.prime_ge_2 p Hp).
    split_and!; try done.
    + by apply Hys.
    + split; [lia|]. intros [_ Hnd]. apply (Hnd p); [lia|done].
  - intros p [Hp Hlt]%Hys Hpo.
    destruct (inv_track _ _ Hinv p Hp Hpo Hlt) as (c & Hc & _).
    exists c. split; [done|]. intros c' Hc'. by eapply (inv_once _ _ Hinv).
Qed.

(** C10: each time the generator is at the head of the [for] loop,
    about to test candidate [q], every entry [c -> p] of [D] has [p] an
    odd prime already yielded and [c] an odd composite multiple of [p]
    with [c >= q], and every odd prime yielded so far is the value of
    exactly one entry. Both branches of the body keep it: the prime
    branch, which inserts [q*q -> q] and yields [q], and the composite
    branch, which pops [q] and reinserts its prime [p] at the next odd
    multiple of [p] that is not a key. *)
Theorem sieve_head_invariant fuel k st :
  loop_head fuel k = Some st ->
  head_invariant st /\
  (dict st !! cand st = None ->
     exists st', step fuel st = Some st' /\
       dict st' = <[cand st * cand st := cand st]> (dict st) /\
       yielded st' = yielded st ++ [cand st] /\ head_invariant st') /\
  (forall p st', dict st !! cand st = Some p -> step fuel st = Some st' ->
     (exists x, dict st' = <[x := p]> (delete (cand st) (dict st)) /\
        cand st < x /\ (p | x) /\ Z.odd x = true /\
        delete (cand st) (dict st) !! x = None /\
        forall m, cand st < m < x -> (p | m) -> Z.odd m = true ->
          is_Some (delete (cand st) (dict st) !! m)) /\
     yielded st' = yielded st /\ head_invariant st').
Proof.
  intros Hrun. destruct (loop_head_inv fuel k st Hrun) as [Hinv Hys].
  split; [by apply head_invariant_holds|]. split.
  - intros Hq. destruct (step fuel st) as [st'|] eqn:Hstep.
    + destruct (step_inv fuel st st' Hinv Hys Hstep) as [Hinv' Hys'].
      exists st'. unfold step, loop_body in Hstep. rewrite Hq in Hstep.
      injection Hstep as <-. simpl. split_and!; try done.
      by apply head_invariant_holds.
    + unfold step, loop_body in Hstep. by rewrite Hq in Hstep.
  - intros p st' Hq Hstep.
    destruct (step_inv fuel st st' Hinv Hys Hstep) as [Hinv' Hys'].
    destruct (inv_entry _ _ Hinv _ p Hq) as (Hp & _ & _ & _ & _ & Hpq & _).
    pose proof (Z.prime_ge_2 p Hp).
    split_and!; [| |by apply head_invariant_holds];
      unfold step, loop_body in Hstep; rewrite Hq in Hstep;
      destruct (next_multiple fuel (delete (cand st) (dict st)) p (p + cand st))
        as [x|] eqn:Hx; try done; injection Hstep as <-; simpl.
    + exists x. split; [done|].
      by apply (next_multiple_next_untracked fuel); [lia|..].
    + by rewrite app_nil_r.
Qed.

Lemma sieve_head_invariant_witness :
  exists st, loop_head 2 4 = Some st /\ cand st = 11 /\
    yielded st = [2; 3; 5; 7] /\ dict st !! 15 = Some 3 /\ head_invariant st.
Proof.
  eexists. split; [vm_compute; reflexivity|].
  split; [reflexivity|]. split; [reflexivity|]. split; [vm_compute; reflexivity|].
  refine (proj1 (sieve_head_invariant 2 4 _ _)). vm_compute. reflexivity.
Defined.

(** C2: for every integer [n], [get_primes_sieve(n)] returns (with
    enough fuel, and then whatever the fuel) the strictly increasing list
    of all primes below [n]: every element is prime, the list is strictly
    increasing, every element is below [n], no prime below [n] is
    missing, and the list is empty for [n <= 2]. *)
Theorem get_primes_sieve_correct n :
  exists fuel0 L,
    (forall fuel, (fuel0 <= fuel)%nat -> get_primes_sieve fuel n = Some L) /\
    Forall Z.prime L /\ StronglySorted Z.lt L /\ Forall (fun p => p < n) L /\
    (forall p, Z.prime p -> p < n -> In p L) /\
    (n <= 2 -> L = []).
Proof.
  destruct (get_primes_sieve_spec n) as (fuel0 & L & Hrun & Hsorted & Hmem).
  exists fuel0, L. split_and!; try done.
  - apply List.Forall_forall. by intros p [? _]%Hmem.
  - apply List.Forall_forall. by intros p [_ ?]%Hmem.
  - intros p Hp Hlt. by apply Hmem.
  - intros Hn. destruct L as [|p L]; [done|exfalso].
    destruct (proj1 (Hmem p)) as [Hp Hlt]; [by left|].
    pose proof (Z.prime_ge_2 p Hp). lia.
Qed.

End SieveFacts.

(** ** The semiprime generator *)

Module SemiprimeFacts.
Import Sieve Semiprime NumberTheory SieveFacts.

Lemma getitem_in_range (L : list Z) i k :
  0 <= i < Z.of_nat (length L) ->
  exists v, getitem L i k = Returned (v, k) /\ In v L.
Proof.
  intros Hi. unfold getitem.
  destruct (Z.ltb_spec i 0); [lia|].
  destruct (Z.leb_spec 0 i); [|lia].
  destruct (Z.ltb_spec i (Z.of_nat (length L))); [|lia]. simpl.
  destruct (lookup_lt_is_Some_2 L (Z.to_nat i)) as [v Hv]; [lia|].
  rewrite Hv. exists v. split; [done|].
  apply list_elem_of_In. by eapply list_elem_of_lookup_2.
Qed.

Lemma product_composite p q :
  Z.prime p -> Z.prime q -> composite (p * q) /\ 4 <= p * q.
Proof.
  intros Hp Hq. pose proof (Z.prime_ge_2 p Hp). pose proof (Z.prime_ge_2 q Hq).
  split; [split|]; [nia| |nia].
  intros [_ Hnd]. apply (Hnd p); [nia|]. by apply Z.divide_mul_l.
Qed.

Example get_semiprime_30 :
  get_semiprime (fun k l => Z.of_nat k mod l) 30 30 0%nat
  = Returned (2 * 3, 2%nat).
Proof. vm_compute. reflexivity. Qed.

(** C6: for every [n > 2] and every outcome of the two draws that
    [random.randrange] can give, [get_semiprime(n)] returns [p * q] with
    [p] and [q] elements of the bounded prime list, so primes below [n]
    (equal or not); the product is composite and at least 4. *)
Theorem get_semiprime_product draw n :
  2 < n -> in_range draw ->
  exists fuel0 L,
    forall fuel k, (fuel0 <= fuel)%nat ->
      get_primes_sieve fuel n = Some L /\
      exists p q,
        get_semiprime draw fuel n k = Returned (p * q, S (S k)) /\
        In p L /\ In q L /\
        Z.prime p /\ Z.prime q /\ p < n /\ q < n /\
        composite (p * q) /\ 4 <= p * q.
Proof.
  intros Hn Hdraw.
  destruct (get_primes_sieve_spec n) as (fuel0 & L & Hrun & _ & Hmem).
  exists fuel0, L. intros fuel k Hfuel. split; [by apply Hrun|].
  assert (Hlen : 0 < Z.of_nat (length L)).
  { assert (Hin : In 2 L) by (apply Hmem; split; [apply Z.prime_2|lia]).
    destruct L; [done|]. simpl. lia. }
  destruct (getitem_in_range L (draw k (Z.of_nat (length L))) (S k))
    as (p & Hp & Hpin); [by apply Hdraw|].
  destruct (getitem_in_range L (draw (S k) (Z.of_nat (length L))) (S (S k)))
    as (q & Hq & Hqin); [by apply Hdraw|].
  exists p, q.
  destruct (proj1 (Hmem p) Hpin) as [Hpp Hpn].
  destruct (proj1 (Hmem q) Hqin) as [Hqp Hqn].
  destruct (product_composite p q Hpp Hqp) as [Hcomp Hge].
  split_and!; try done.
  unfold get_semiprime, bind, lift, randrange, ret. rewrite Hrun by done.
  destruct (Z.leb_spec (Z.of_nat (length L)) 0); [lia|].
  by rewrite Hp, Hq.
Qed.

Lemma get_semiprime_product_witness :
  exists fuel0 L,
    forall fuel k, (fuel0 <= fuel)%nat ->
      get_primes_sieve fuel 10 = Some L /\
      exists p q,
        get_semiprime (fun _ _ => 0) fuel 10 k = Returned (p * q, S (S k)) /\
        In p L /\ In q L /\
        Z.prime p /\ Z.prime q /\ p < 10 /\ q < 10 /\
        composite (p * q) /\ 4 <= p * q.
Proof.
  apply (get_semiprime_product (fun _ _ => 0) 10); [lia|].
  intros k l Hl. lia.
Defined.

(** C7: for every [n <= 2] the bounded prime list is empty and
    [get_semiprime(n)] raises before it indexes the list: the error is
    the [ValueError] of [random.randrange(0)], not an [IndexError]. *)
Theorem get_semiprime_small_bound draw n fuel k :
  n <= 2 ->
  get_primes_sieve (S fuel) n = Some [] /\
  get_semiprime draw (S fuel) n k = Raised ValueError.
Proof.
  intros Hn.
  assert (Hlist : get_primes_sieve (S fuel) n = Some []).
  { unfold get_primes_sieve. simpl. by destruct (Z.ltb_spec 2 n); [lia|]. }
  split; [done|].
  unfold get_semiprime, bind, lift, randrange. by rewrite Hlist.
Qed.

Lemma get_semiprime_small_bound_witness :
  get_primes_sieve 1 2 = Some [] /\
  get_semiprime (fun _ _ => 0) 1 2 0%nat = Raised ValueError.
Proof. apply (get_semiprime_small_bound (fun _ _ => 0) 2 0%nat 0%nat). lia. Defined.

End SemiprimeFacts.

(** ** Factor recovery *)

Module RecoverFacts.
Import Recover NumberTheory.

Section Recovery.
Context (x N r : Z).
Hypothesis HN : 1 < N.
Hypothesis Hr : 2 <= r.
Hypothesis Heven : Z.even r = true.
Hypothesis Hperiod : x ^ r mod N = 1.

Let y := half_power x N r.

Lemma half_power_range : 0 <= y < N.
Proof. apply Z.mod_pos_bound. lia. Qed.

Lemma half_power_square : (N | (y - 1) * (y + 1)).
Proof.
  assert (Hsq : (y * y) mod N = 1).
  { unfold y, half_power. rewrite <- Z.mul_mod by lia.
    rewrite <- Z.pow_add_r by (apply Z.div_pos; lia).
    replace (r / 2 + r / 2) with r; [done|].
    apply Z.even_spec in Heven as [h ->].
    rewrite (Z.mul_comm 2 h), Z.div_mul by lia. lia. }
  replace ((y - 1) * (y + 1)) with (y * y - (y * y) mod N) by lia.
  apply divide_sub_mod.
Qed.

Hypothesis Hne1 : y <> 1.
Hypothesis Hnem1 : y <> N - 1.

Lemma half_power_inner : 2 <= y <= N - 2.
Proof.
  pose proof half_power_range. pose proof half_power_square as [c Hc].
  assert (y <> 0).
  { intros E. assert (HcN : c * N = -1) by (rewrite <- Hc, E; lia).
    assert (c = 0 \/ 1 <= c \/ c <= -1) as [->|[?|?]] by lia; nia. }
  lia.
Qed.

Lemma d_plus_nontrivial : nontrivial N (d_plus x N r).
Proof.
  pose proof half_power_inner as Hy. unfold nontrivial, d_plus. fold y.
  pose proof (Z.gcd_nonneg (y - 1) N).
  pose proof (Z.gcd_divide_l (y - 1) N) as Hl.
  pose proof (Z.gcd_divide_r (y - 1) N) as Hr'.
  apply Z.divide_pos_le in Hl; [|lia].
  split; [|done]. split; [|lia].
  destruct (Z.eq_dec (Z.gcd (y - 1) N) 0) as [E|].
  { apply Z.gcd_eq_0_r in E. lia. }
  destruct (Z.eq_dec (Z.gcd (y - 1) N) 1) as [E|]; [exfalso|lia].
  pose proof half_power_square as Hsq.
  apply Z.gauss in Hsq; [|by rewrite Z.gcd_comm].
  apply Z.divide_pos_le in Hsq; lia.
Qed.

Lemma d_minus_nontrivial : nontrivial N (d_minus x N r).
Proof.
  pose proof half_power_inner as Hy. unfold nontrivial, d_minus. fold y.
  pose proof (Z.gcd_nonneg (y + 1) N).
  pose proof (Z.gcd_divide_l (y + 1) N) as Hl.
  pose proof (Z.gcd_divide_r (y + 1) N) as Hr'.
  apply Z.divide_pos_le in Hl; [|lia].
  split; [|done]. split; [|lia].
  destruct (Z.eq_dec (Z.gcd (y + 1) N) 0) as [E|].
  { apply Z.gcd_eq_0_r in E. lia. }
  destruct (Z.eq_dec (Z.gcd (y + 1) N) 1) as [E|]; [exfalso|lia].
  pose proof half_power_square as Hsq. rewrite Z.mul_comm in Hsq.
  apply Z.gauss in Hsq; [|by rewrite Z.gcd_comm].
  apply Z.divide_pos_le in Hsq; lia.
Qed.

End Recovery.

(** Under the same hypotheses the modelled recovery returns both
    gcds. *)
Lemma recover_returns_both x N r :
  1 < N -> 2 <= r -> Z.even r = true -> x ^ r mod N = 1 ->
  half_power x N r <> 1 -> half_power x N r <> N - 1 ->
  recover x N r = inr [d_plus x N r; d_minus x N r].
Proof.
  intros HN Hr Heven Hperiod Hne1 Hnem1.
  destruct (d_plus_nontrivial x N r HN Hr Heven Hperiod Hne1 Hnem1) as [Hplus _].
  destruct (d_minus_nontrivial x N r HN Hr Heven Hperiod Hne1 Hnem1) as [Hminus _].
  unfold recover. rewrite <- Z.negb_even, Heven. simpl.
  destruct (Z.ltb_spec r 2); [lia|].
  rewrite (Z.mod_small (N - 1) N), (Z.mod_small 1 N) by lia.
  destruct (Z.eqb_spec (half_power x N r) (N - 1)); [done|].
  destruct (Z.eqb_spec (half_power x N r) 1); [done|]. simpl.
  unfold nontrivialb.
  destruct (Z.ltb_spec 1 (d_plus x N r)); [|lia].
  destruct (Z.ltb_spec (d_plus x N r) N); [|lia].
  destruct (Z.ltb_spec 1 (d_minus x N r)); [|lia].
  destruct (Z.ltb_spec (d_minus x N r) N); [|lia]. done.
Qed.

(** The scenarios of the spec: [N = 15], [N = 21] and the failure at
    [N = 9]. *)
Example recover_2_15 : recover 2 15 4 = inr [3; 5].
Proof. reflexivity. Qed.

Example recover_2_21 : recover 2 21 6 = inr [7; 3].
Proof. reflexivity. Qed.

Example recover_2_9 : recover 2 9 6 = inl RecoveryFailed.
Proof. reflexivity. Qed.

Example recover_odd_period : recover 4 21 3 = inl InvalidPeriod.
Proof. reflexivity. Qed.

(** C5: for [N > 1], any [x] and an even [r >= 2] with
    [x ^ r mod N = 1], if [y = x ^ (r/2) mod N] is neither 1 nor [N - 1]
    then [gcd(y - 1, N)] or [gcd(y + 1, N)] is a divisor of [N] strictly
    between 1 and [N]. *)
Theorem recover_nontrivial x N r :
  1 < N -> 2 <= r -> Z.even r = true -> x ^ r mod N = 1 ->
  half_power x N r <> 1 -> half_power x N r <> N - 1 ->
  nontrivial N (d_plus x N r) \/ nontrivial N (d_minus x N r).
Proof. intros. left. by apply d_plus_nontrivial. Qed.

Lemma recover_nontrivial_witness :
  nontrivial 21 (d_plus 2 21 6) \/ nontrivial 21 (d_minus 2 21 6).
Proof.
  apply (recover_nontrivial 2 21 6); [lia|lia|reflexivity|reflexivity| |];
    vm_compute; discriminate.
Defined.

End RecoverFacts.

(** * Further properties of the code *)

(** ** The period finder beyond its contract *)

Module PeriodExtras.
Import Period NumberTheory PeriodFacts.

Lemma find_period_loop_stuck x N : N < 0 \/ N = 1 ->
  forall fuel t n, t <> 1 -> find_period_loop fuel x N t n = OutOfFuel.
Proof.
  intros HN. induction fuel as [|fuel IH]; intros t n Ht; simpl;
    destruct (Z.eqb_spec t 1); try done.
  destruct (Z.eqb_spec N 0); [lia|]. apply IH. unfold body.
  destruct HN as [HN| ->].
  - pose proof (Z.mod_neg_bound (t * x) N HN). lia.
  - rewrite Z.mod_1_r. lia.
Qed.

(** X1: with a modulus of at most 1 the function returns for no base
    other than 1. With [N = 0] the first [t %= N] raises
    [ZeroDivisionError]; with [N = 1] or [N < 0] the reduced product is
    never positive, so the guard never sees [t = 1] and the loop runs
    for ever. *)
Theorem find_period_classical_modulus_at_most_1 x N :
  x <> 1 -> N <= 1 ->
  (N = 0 -> forall fuel,
     find_period_classical (S fuel) x N = Raised ZeroDivisionError) /\
  (N <> 0 -> forall fuel, find_period_classical fuel x N = OutOfFuel) /\
  (forall fuel r, find_period_classical fuel x N <> Returned r).
Proof.
  intros Hx HN.
  assert (Hzero : N = 0 -> forall fuel,
            find_period_classical (S fuel) x N = Raised ZeroDivisionError).
  { intros -> fuel. unfold find_period_classical. simpl.
    by destruct (Z.eqb_spec x 1). }
  assert (Hloop : N <> 0 -> forall fuel,
            find_period_classical fuel x N = OutOfFuel).
  { intros HN0 fuel. apply find_period_loop_stuck; [lia|done]. }
  split_and!; [done|done|].
  intros fuel r. destruct (Z.eq_dec N 0) as [HN0|HN0].
  - destruct fuel as [|fuel]; [|by rewrite Hzero].
    unfold find_period_classical. simpl. by destruct (Z.eqb_spec x 1).
  - by rewrite Hloop.
Qed.

Lemma find_period_classical_modulus_at_most_1_witness :
  (1 = 0 -> forall fuel,
     find_period_classical (S fuel) 7 1 = Raised ZeroDivisionError) /\
  (1 <> 0 -> forall fuel, find_period_classical fuel 7 1 = OutOfFuel) /\
  (forall fuel r, find_period_classical fuel 7 1 <> Returned r).
Proof. apply (find_period_classical_modulus_at_most_1 7 1); lia. Defined.

(** What a returned value says about the run, for any base other than
    1: the modulus is not 0 and the result is the least exponent from 2
    on whose power is 1. *)
Lemma find_period_classical_returned x N fuel r :
  x <> 1 -> find_period_classical fuel x N = Returned r ->
  N <> 0 /\ least_power_from 2 x N r.
Proof.
  intros Hx Hrun.
  assert (HN : N <> 0).
  { intros ->. destruct fuel as [|fuel]; unfold find_period_classical in Hrun;
      simpl in Hrun; by destruct (Z.eqb_spec x 1). }
  split; [done|].
  pose proof (loop_spec x N HN fuel 0%nat 1) as Hspec.
  unfold find_period_classical in Hrun. simpl loop_t in Hspec.
  rewrite Hrun in Hspec. destruct Hspec as (j & _ & -> & H1 & Hmin).
  simpl in H1, Hmin. destruct j as [|j]; [simpl in H1; lia|].
  rewrite loop_t_pow in H1. split; [lia|]. split.
  - by replace (1 + Z.of_nat (S j)) with (Z.of_nat j + 2) by lia.
  - intros e He. specialize (Hmin (S (Z.to_nat (e - 2))) ltac:(lia)).
    rewrite loop_t_pow in Hmin.
    by replace (Z.of_nat (Z.to_nat (e - 2)) + 2) with e in Hmin by lia.
Qed.

Lemma find_period_classical_returns_any x N :
  x <> 1 -> 1 < N -> Z.gcd x N = 1 ->
  exists r, 2 <= r <= N /\
    forall fuel, (Z.to_nat N <= fuel)%nat ->
      find_period_classical fuel x N = Returned r.
Proof.
  intros Hx HN Hg. destruct (loop_t_hits_one x N HN Hg) as (k0 & Hk0 & E0).
  assert (Hleast : exists k, (1 <= k <= k0)%nat /\ loop_t x N k = 1 /\
            forall i, (i < k)%nat -> loop_t x N i <> 1).
  { pose proof (loop_spec x N ltac:(lia) k0 0%nat 1) as Hspec.
    simpl loop_t in Hspec.
    destruct (find_period_loop k0 x N x 1) as [r|e|]; [|done|].
    - destruct Hspec as (j & Hj & _ & H1 & Hmin). simpl in H1, Hmin.
      exists j. split_and!; try done; try lia.
      destruct j; [simpl in H1; lia|lia].
    - exfalso. apply (Hspec k0); [lia|done]. }
  destruct Hleast as (k & Hk & E & Hmin).
  exists (1 + Z.of_nat k). split; [lia|].
  intros fuel Hfuel. unfold find_period_classical.
  pose proof (loop_spec x N ltac:(lia) fuel 0%nat 1) as Hspec.
  simpl loop_t in Hspec.
  destruct (find_period_loop fuel x N x 1) as [r|e|]; [|done|].
  - destruct Hspec as (j & Hj & -> & H1 & Hminj). simpl in H1, Hminj.
    destruct (lt_eq_lt_dec j k) as [[Hlt| ->]|Hgt]; [|done|].
    + exfalso. by apply (Hmin j).
    + exfalso. by apply (Hminj k).
  - exfalso. apply (Hspec k); [lia|done].
Qed.

(** X2: for a modulus above 1 and any integer base other than 1 -- zero,
    negative or above the modulus as well -- the function returns
    exactly when the base is coprime to the modulus, and then with a
    result between 2 and [N] after at most [N] iterations. *)
Theorem find_period_classical_returns_iff_coprime x N :
  x <> 1 -> 1 < N ->
  ((exists fuel r, find_period_classical fuel x N = Returned r) <->
   Z.gcd x N = 1) /\
  (Z.gcd x N = 1 ->
   exists r, 2 <= r <= N /\
     forall fuel, (Z.to_nat N <= fuel)%nat ->
       find_period_classical fuel x N = Returned r).
Proof.
  intros Hx HN. split; [split|].
  - intros (fuel & r & Hrun).
    destruct (find_period_classical_returned x N fuel r Hx Hrun)
      as (_ & Hr & Hpow & _).
    destruct (Z.eq_dec (Z.gcd x N) 1) as [|Hg]; [done|exfalso].
    by apply (power_not_one x N r HN Hg ltac:(lia)).
  - intros Hg. destruct (find_period_classical_returns_any x N Hx HN Hg)
      as (r & _ & Hrun).
    exists (Z.to_nat N), r. by apply Hrun.
  - by apply find_period_classical_returns_any.
Qed.

Lemma find_period_classical_returns_iff_coprime_witness :
  ((exists fuel r, find_period_classical fuel (-2) 15 = Returned r) <->
   Z.gcd (-2) 15 = 1) /\
  (Z.gcd (-2) 15 = 1 ->
   exists r, 2 <= r <= 15 /\
     forall fuel, (Z.to_nat 15 <= fuel)%nat ->
       find_period_classical fuel (-2) 15 = Returned r).
Proof.
  apply (find_period_classical_returns_iff_coprime (-2) 15); lia.
Defined.

Lemma pow_mod_one a N (c : nat) : 1 < N -> a mod N = 1 -> a ^ Z.of_nat c mod N = 1.
Proof.
  intros HN Ha. induction c as [|c IH]; [by apply Z.mod_small|].
  rewrite Nat2Z.inj_succ, Z.pow_succ_r by lia.
  rewrite Z.mul_mod, Ha, IH by lia. by apply Z.mod_small.
Qed.

(** X3: whenever the function returns, the returned value is a period
    of the powers of [x] modulo [N]. *)
Theorem find_period_classical_is_period x N fuel r a :
  find_period_classical fuel x N = Returned r -> 0 <= a ->
  x ^ (a + r) mod N = x ^ a mod N.
Proof.
  intros Hrun Ha. destruct (Z.eq_dec x 1) as [->|Hx].
  - assert (r = 1) as -> by (destruct fuel; vm_compute in Hrun; congruence).
    by rewrite !Z.pow_1_l by lia.
  - destruct (find_period_classical_returned x N fuel r Hx Hrun)
      as (HN & Hr & Hpow & _).
    rewrite Z.pow_add_r by lia.
    rewrite Z.mul_mod, Hpow, Z.mul_1_r by done. by rewrite Z.mod_mod.
Qed.

Lemma find_period_classical_is_period_witness :
  7 ^ (3 + 4) mod 15 = 7 ^ 3 mod 15.
Proof.
  apply (find_period_classical_is_period 7 15 3 4 3); [reflexivity|lia].
Defined.

(** X4: for a base not congruent to 1 the returned value is the order of
    [x] modulo [N]: the exponents whose power is 1 are exactly its
    multiples. *)
Theorem find_period_classical_divides x N fuel r e :
  1 < N -> x mod N <> 1 ->
  find_period_classical fuel x N = Returned r -> 0 <= e ->
  (x ^ e mod N = 1 <-> (r | e)).
Proof.
  intros HN Hx1 Hrun He.
  assert (Hx : x <> 1) by (intros ->; rewrite Z.mod_small in Hx1; lia).
  destruct (find_period_classical_returned x N fuel r Hx Hrun)
    as (_ & Hr & Hpow & Hmin).
  split.
  - intros Hone.
    assert (Hsplit : e = r * (e / r) + e mod r) by (apply Z.div_mod; lia).
    pose proof (Z.mod_pos_bound e r ltac:(lia)) as Hs.
    assert (0 <= e / r) by (apply Z.div_pos; lia).
    assert (Hrem : x ^ (e mod r) mod N = 1).
    { rewrite Hsplit, Z.pow_add_r, Z.pow_mul_r in Hone by lia.
      rewrite Z.mul_mod in Hone by lia.
      rewrite <- (Z2Nat.id (e / r)) in Hone at 1 by lia.
      rewrite (pow_mod_one _ N _ HN Hpow), Z.mul_1_l, Z.mod_mod in Hone by lia.
      done. }
    destruct (Z.eq_dec (e mod r) 0) as [E|E].
    + apply Z.mod_divide; [lia|done].
    + exfalso. destruct (Z.eq_dec (e mod r) 1) as [E1|E1].
      * rewrite E1, Z.pow_1_r in Hrem. done.
      * apply (Hmin (e mod r)); [lia|done].
  - intros [c ->]. assert (0 <= c) by nia.
    rewrite Z.mul_comm, Z.pow_mul_r by lia.
    rewrite <- (Z2Nat.id c) by lia. by apply pow_mod_one.
Qed.

Lemma find_period_classical_divides_witness :
  2 ^ 12 mod 15 = 1 <-> (4 | 12).
Proof.
  apply (find_period_classical_divides 2 15 3 4 12);
    [lia|vm_compute; discriminate|reflexivity|lia].
Defined.

Lemma find_period_loop_base_mod x N : N <> 0 ->
  forall fuel t n,
    find_period_loop fuel x N t n = find_period_loop fuel (x mod N) N t n.
Proof.
  intros HN. induction fuel as [|fuel IH]; intros t n; simpl; [done|].
  destruct (Z.eqb_spec t 1); [done|]. destruct (Z.eqb_spec N 0); [done|].
  unfold body. by rewrite Z.mul_mod_idemp_r, IH by done.
Qed.

(** X5: reducing the base modulo [N] before the call changes nothing,
    unless the base is congruent to 1: the loop only ever uses the base
    as a factor under [% N], apart from the first test of [t]. *)
Theorem find_period_classical_base_mod x N fuel :
  N <> 0 -> x <> 1 -> x mod N <> 1 ->
  find_period_classical fuel x N = find_period_classical fuel (x mod N) N.
Proof.
  intros HN Hx Hx1. unfold find_period_classical.
  destruct fuel as [|fuel]; simpl;
    destruct (Z.eqb_spec x 1); destruct (Z.eqb_spec (x mod N) 1); try done.
  destruct (Z.eqb_spec N 0); [done|].
  rewrite find_period_loop_base_mod by done. unfold body.
  by rewrite Z.mul_mod_idemp_l, Z.mul_mod_idemp_r by done.
Qed.

Lemma find_period_classical_base_mod_witness :
  find_period_classical 10 17 15 = find_period_classical 10 (17 mod 15) 15.
Proof.
  apply (find_period_classical_base_mod 17 15 10);
    [lia|lia|vm_compute; discriminate].
Defined.

End PeriodExtras.

(** ** The generator and the bounded list *)

Module SieveExtras.
Import Sieve NumberTheory SieveFacts.

Lemma loop_head_cand fuel k : forall st,
  loop_head fuel k = Some st -> cand st = 3 + 2 * Z.of_nat k.
Proof.
  induction k as [|k IH]; intros st; simpl.
  - by intros [= <-].
  - destruct (loop_head fuel k) as [st0|]; [|done].
    specialize (IH st0 eq_refl). unfold step.
    destruct (loop_body fuel (dict st0) (cand st0)) as [[D' out]|]; [|done].
    intros [= <-]. simpl. lia.
Qed.

(** X6: at the head of the loop the candidate is a key of [D] exactly when
    it is composite; its value is then a prime factor of the candidate
    that is at most its square root. *)
Theorem sieve_candidate_tracked_iff_composite fuel k st :
  loop_head fuel k = Some st ->
  cand st = 3 + 2 * Z.of_nat k /\
  (dict st !! cand st = None <-> Z.prime (cand st)) /\
  forall p, dict st !! cand st = Some p ->
    Z.prime p /\ (p | cand st) /\ p * p <= cand st.
Proof.
  intros Hrun. destruct (loop_head_inv fuel k st Hrun) as [Hinv _].
  split; [by eapply loop_head_cand|]. split; [split|].
  - by apply untracked_prime.
  - intros Hq. destruct (dict st !! cand st) as [p|] eqn:E; [|done].
    exfalso. by eapply tracked_composite.
  - intros p Hp.
    destruct (inv_entry _ _ Hinv _ p Hp) as (? & _ & _ & _ & _ & ? & ?). done.
Qed.

Lemma sieve_candidate_tracked_iff_composite_witness :
  exists st, loop_head 3 21 = Some st /\ cand st = 45 /\
    dict st !! 45 = Some 5 /\
    (dict st !! cand st = None <-> Z.prime (cand st)).
Proof.
  eexists. split; [vm_compute; reflexivity|]. split; [reflexivity|].
  split; [vm_compute; reflexivity|].
  refine (proj1 (proj2 (sieve_candidate_tracked_iff_composite 3 21 _ _))).
  vm_compute. reflexivity.
Defined.

Lemma sorted_snoc (l : list Z) q :
  StronglySorted Z.lt l -> (forall p, In p l -> p < q) ->
  StronglySorted Z.lt (l ++ [q]).
Proof.
  intros Hl Hq. apply StronglySorted_app_2; [|done|repeat constructor].
  intros a b Ha%list_elem_of_In Hb%list_elem_of_In.
  destruct Hb as [<-|[ ]]. by apply Hq.
Qed.

Lemma loop_head_sorted fuel k : forall st,
  loop_head fuel k = Some st -> StronglySorted Z.lt (yielded st).
Proof.
  induction k as [|k IH]; intros st; simpl.
  - intros [= <-]. simpl. repeat constructor.
  - destruct (loop_head fuel k) as [st0|] eqn:Hk; [|done].
    specialize (IH st0 eq_refl).
    destruct (loop_head_inv fuel k st0 Hk) as [_ Hys]. unfold step.
    destruct (loop_body fuel (dict st0) (cand st0)) as [[D' [v|]]|] eqn:Hb;
      [| |done]; intros [= <-]; simpl.
    + assert (v = cand st0) as ->.
      { unfold loop_body in Hb. destruct (dict st0 !! cand st0).
        - by destruct (next_multiple _ _ _ _).
        - by injection Hb. }
      apply sorted_snoc; [done|]. by intros p [_ ?]%Hys.
    + by rewrite app_nil_r.
Qed.

(** X7: the generator never gets stuck and yields the primes in increasing
    order, nothing else and none twice: by the time it is about to test
    the [k]-th odd candidate it has yielded exactly the primes below
    it. *)
Theorem sieve_yields_primes_in_order k :
  exists fuel0 st,
    (forall fuel, (fuel0 <= fuel)%nat -> loop_head fuel k = Some st) /\
    cand st = 3 + 2 * Z.of_nat k /\
    StronglySorted Z.lt (yielded st) /\
    forall p, In p (yielded st) <-> Z.prime p /\ p < 3 + 2 * Z.of_nat k.
Proof.
  destruct (loop_head_reached k) as (fuel0 & st & Hrun).
  pose proof (Hrun fuel0 ltac:(lia)) as H0.
  pose proof (loop_head_cand _ _ _ H0) as Hc.
  destruct (loop_head_inv _ _ _ H0) as [_ Hys].
  exists fuel0, st. split_and!; [done|done|by eapply loop_head_sorted|].
  intros p. by rewrite <- Hc.
Qed.



(** X9: the dictionary holds one entry for each odd prime yielded and
    nothing else: its size is the number of values yielded less one (the
    prime 2, which has no entry). *)
Theorem sieve_dict_size fuel k st :
  loop_head fuel k = Some st ->
  S (size (dict st)) = length (yielded st).
Proof.
  revert st. induction k as [|k IH]; intros st; simpl.
  - by intros [= <-].
  - destruct (loop_head fuel k) as [st0|] eqn:Hk; [|done].
    specialize (IH st0 eq_refl).
    destruct (loop_head_inv fuel k st0 Hk) as [Hinv _].
    unfold step, loop_body.
    destruct (dict st0 !! cand st0) as [p|] eqn:Hq.
    + destruct (next_multiple fuel _ p (p + cand st0)) as [x|] eqn:Hx; [|done].
      intros [= <-]. simpl. rewrite app_nil_r, <- IH.
      destruct (inv_entry _ _ Hinv _ p Hq) as (Hp & _ & _ & _ & _ & Hpq & _).
      pose proof (Z.prime_ge_2 p Hp).
      destruct (next_multiple_next_untracked fuel _ p _ x ltac:(lia) Hpq Hx)
        as (_ & _ & _ & Hfree & _).
      rewrite map_size_insert_None by done.
      rewrite <- (insert_delete_id (dict st0) (cand st0) p Hq) at 2.
      by rewrite map_size_insert_None by apply lookup_delete_eq.
    + intros [= <-]. simpl. rewrite length_app, <- IH. simpl.
      rewrite map_size_insert_None; [lia|].
      apply square_untracked; [done|]. by apply (untracked_prime (dict st0)).
Qed.

Lemma sieve_dict_size_witness :
  exists st, loop_head 3 12 = Some st /\
    S (size (dict st)) = length (yielded st).
Proof.
  eexists. split; [vm_compute; reflexivity|].
  apply (sieve_dict_size 3 12). vm_compute. reflexivity.
Defined.

(** X10: the inner loop on its own, for any dictionary, any start and
    any odd step [p > 0]: it ends, with the first of [x], [x + p],
    [x + 2p], ... that is odd and not a key. *)
Theorem next_multiple_first_untracked (D : gmap Z Z) p x :
  0 < p -> Z.odd p = true ->
  exists fuel0 (i : nat),
    (forall fuel, (fuel0 <= fuel)%nat ->
       next_multiple fuel D p x = Some (x + Z.of_nat i * p)) /\
    D !! (x + Z.of_nat i * p) = None /\
    Z.odd (x + Z.of_nat i * p) = true /\
    forall j : nat, (j < i)%nat ->
      is_Some (D !! (x + Z.of_nat j * p)) \/
      Z.odd (x + Z.of_nat j * p) = false.
Proof.
  intros Hp Hodd.
  destruct (next_multiple_terminates D p x Hp Hodd) as (fuel0 & y & Hrun).
  destruct (next_multiple_spec fuel0 D p x y (Hrun fuel0 ltac:(lia)))
    as (i & -> & [Hfree Hyodd]%tracked_or_even_false & Hskip).
  exists fuel0, i. split_and!; try done.
  intros j Hj. specialize (Hskip j Hj).
  destruct (Z.odd (x + Z.of_nat j * p)) eqn:E; [left|by right].
  by apply tracked_or_even_true.
Qed.

Lemma next_multiple_first_untracked_witness :
  exists fuel0 (i : nat),
    (forall fuel, (fuel0 <= fuel)%nat ->
       next_multiple fuel {[ 15 := 5 ]} 3 12 = Some (12 + Z.of_nat i * 3)) /\
    ({[ 15 := 5 ]} : gmap Z Z) !! (12 + Z.of_nat i * 3) = None /\
    Z.odd (12 + Z.of_nat i * 3) = true /\
    forall j : nat, (j < i)%nat ->
      is_Some (({[ 15 := 5 ]} : gmap Z Z) !! (12 + Z.of_nat j * 3)) \/
      Z.odd (12 + Z.of_nat j * 3) = false.
Proof.
  apply (next_multiple_first_untracked {[ 15 := 5 ]} 3 12); [lia|reflexivity].
Defined.




End SieveExtras.

(** ** The semiprime and its use *)

Module SemiprimeExtras.
Import Period Sieve Semiprime NumberTheory PeriodFacts SieveFacts SemiprimeFacts.

Lemma getitem_lookup (L : list Z) i v k :
  0 <= i < Z.of_nat (length L) -> L !! Z.to_nat i = Some v ->
  getitem L i k = Returned (v, k).
Proof.
  intros Hi Hv. unfold getitem.
  destruct (Z.ltb_spec i 0); [lia|].
  destruct (Z.leb_spec 0 i); [|lia].
  destruct (Z.ltb_spec i (Z.of_nat (length L))); [|lia]. simpl.
  by rewrite Hv.
Qed.

(** A run of [get_semiprime] on a bound above 2: the two draws are
    taken in order from the range [len(primes)], and each indexes the
    list. *)
Lemma get_semiprime_returns draw n :
  2 < n -> in_range draw ->
  exists fuel0 L,
    forall fuel k, (fuel0 <= fuel)%nat ->
      get_primes_sieve fuel n = Some L /\
      exists p q,
        get_semiprime draw fuel n k = Returned (p * q, S (S k)) /\
        L !! Z.to_nat (draw k (Z.of_nat (length L))) = Some p /\
        L !! Z.to_nat (draw (S k) (Z.of_nat (length L))) = Some q /\
        Z.prime p /\ Z.prime q /\ p < n /\ q < n.
Proof.
  intros Hn Hdraw.
  destruct (get_primes_sieve_spec n) as (fuel0 & L & Hrun & _ & Hmem).
  exists fuel0, L. intros fuel k Hfuel. split; [by apply Hrun|].
  assert (Hlen : 0 < Z.of_nat (length L)).
  { assert (Hin : In 2 L) by (apply Hmem; split; [apply Z.prime_2|lia]).
    destruct L; [done|]. simpl. lia. }
  pose proof (Hdraw k _ Hlen) as Hi. pose proof (Hdraw (S k) _ Hlen) as Hj.
  destruct (lookup_lt_is_Some_2 L (Z.to_nat (draw k (Z.of_nat (length L)))))
    as [p Hp]; [lia|].
  destruct (lookup_lt_is_Some_2 L (Z.to_nat (draw (S k) (Z.of_nat (length L)))))
    as [q Hq]; [lia|].
  exists p, q.
  destruct (proj1 (Hmem p)) as [Hpp Hpn];
    [apply list_elem_of_In; by eapply list_elem_of_lookup_2|].
  destruct (proj1 (Hmem q)) as [Hqp Hqn];
    [apply list_elem_of_In; by eapply list_elem_of_lookup_2|].
  split_and!; try done.
  unfold get_semiprime, bind, lift, randrange, ret. rewrite Hrun by done.
  destruct (Z.leb_spec (Z.of_nat (length L)) 0); [lia|].
  by rewrite (getitem_lookup L _ p (S k) Hi Hp),
    (getitem_lookup L _ q (S (S k)) Hj Hq).
Qed.




(** X13: the smallest bound with a prime below it: the list is [[2]], both
    draws can only be 0, and the result is 4 whatever the random
    source. *)
Theorem get_semiprime_bound_3 draw fuel k :
  in_range draw ->
  get_semiprime draw (3 + fuel) 3 k = Returned (4, S (S k)).
Proof.
  intros Hdraw.
  assert (Hlist : get_primes_sieve (3 + fuel) 3 = Some [2]) by reflexivity.
  pose proof (Hdraw k 1 ltac:(lia)) as Hi.
  pose proof (Hdraw (S k) 1 ltac:(lia)) as Hj.
  unfold get_semiprime, bind, lift, randrange, ret. rewrite Hlist.
  change (Z.of_nat (length [2])) with 1. change (1 <=? 0) with false.
  cbv beta iota. assert (draw k 1 = 0) as -> by lia.
  rewrite (getitem_lookup [2] 0 2 (S k)) by (simpl; done || lia).
  assert (draw (S k) 1 = 0) as -> by lia.
  reflexivity.
Qed.

Lemma get_semiprime_bound_3_witness :
  get_semiprime (fun _ _ => 0) (3 + 0) 3 0%nat = Returned (4, 2%nat).
Proof.
  apply (get_semiprime_bound_3 (fun _ _ => 0) 0 0). intros k l Hl. lia.
Defined.

Lemma shared_factor_diverges x N fuel :
  x <> 1 -> 1 < N -> Z.gcd x N <> 1 ->
  find_period_classical fuel x N = OutOfFuel.
Proof.
  intros Hx HN Hg.
  pose proof (loop_spec x N ltac:(lia) fuel 0%nat 1) as Hspec.
  unfold find_period_classical. simpl loop_t in Hspec.
  destruct (find_period_loop fuel x N x 1) as [r|e|]; [|done|done].
  destruct Hspec as (j & _ & _ & H1 & _). simpl in H1. exfalso.
  destruct j as [|j]; [simpl in H1; lia|]. rewrite loop_t_pow in H1.
  by apply (power_not_one x N (Z.of_nat j + 2) HN Hg ltac:(lia)).
Qed.

(** X14: the generator feeding the period finder: every number [N] that
    [get_semiprime] returns has bases in [2, N - 1] -- its own prime
    factors -- on which [find_period_classical] never returns. *)
Theorem find_period_classical_on_semiprime_factor draw n :
  2 < n -> in_range draw ->
  exists fuel0, forall fuel k, (fuel0 <= fuel)%nat ->
    exists N x,
      get_semiprime draw fuel n k = Returned (N, S (S k)) /\
      2 <= x < N /\ (x | N) /\
      forall fuel', find_period_classical fuel' x N = OutOfFuel.
Proof.
  intros Hn Hdraw.
  destruct (get_semiprime_returns draw n Hn Hdraw) as (fuel0 & L & Hrun).
  exists fuel0. intros fuel k Hfuel.
  destruct (Hrun fuel k Hfuel) as (_ & p & q & Hret & _ & _ & Hp & Hq & _).
  pose proof (Z.prime_ge_2 p Hp). pose proof (Z.prime_ge_2 q Hq).
  exists (p * q), p. split_and!; try done; try nia.
  - by apply Z.divide_mul_l.
  - intros fuel'. apply shared_factor_diverges; [lia|nia|].
    intros Hg. assert (Hdiv : (p | Z.gcd p (p * q))).
    { apply Z.gcd_greatest; [done|by apply Z.divide_mul_l]. }
    rewrite Hg in Hdiv. apply Z.divide_1_r_nonneg in Hdiv; lia.
Qed.

Lemma find_period_classical_on_semiprime_factor_witness :
  exists fuel0, forall fuel k, (fuel0 <= fuel)%nat ->
    exists N x,
      get_semiprime (fun _ _ => 0) fuel 20 k = Returned (N, S (S k)) /\
      2 <= x < N /\ (x | N) /\
      forall fuel', find_period_classical fuel' x N = OutOfFuel.
Proof.
  apply (find_period_classical_on_semiprime_factor (fun _ _ => 0) 20); [lia|].
  intros k l Hl. lia.
Defined.

(** X15: the notebook's own call, [N = get_semiprime(1000)], never raises:
    it binds [N] to a composite number between 4 and [997 * 997]. *)
Theorem notebook_N_range draw :
  in_range draw ->
  exists fuel0, forall fuel k, (fuel0 <= fuel)%nat ->
    exists N, notebook_N draw fuel k = Returned (N, S (S k)) /\
      composite N /\ 4 <= N <= 997 * 997.
Proof.
  intros Hdraw. unfold notebook_N.
  destruct (get_semiprime_returns draw 1000 ltac:(lia) Hdraw) as (fuel0 & L & Hrun).
  exists fuel0. intros fuel k Hfuel.
  destruct (Hrun fuel k Hfuel) as (_ & p & q & Hret & _ & _ & Hp & Hq & Hpn & Hqn).
  assert (Hmax : forall d, Z.prime d -> d < 1000 -> d <= 997).
  { intros d [_ Hd] Hlt. destruct (Z.le_gt_cases d 997) as [|Hgt]; [done|exfalso].
    assert (d = 998 \/ d = 999) as [-> | ->] by lia.
    - apply (Hd 2); [lia|]. by exists 499.
    - apply (Hd 3); [lia|]. by exists 333. }
  pose proof (Hmax p Hp Hpn). pose proof (Hmax q Hq Hqn).
  pose proof (Z.prime_ge_2 p Hp). pose proof (Z.prime_ge_2 q Hq).
  destruct (product_composite p q Hp Hq) as [Hcomp _].
  exists (p * q). split_and!; try done; nia.
Qed.

Lemma notebook_N_range_witness :
  exists fuel0, forall fuel k, (fuel0 <= fuel)%nat ->
    exists N, notebook_N (fun _ _ => 0) fuel k = Returned (N, S (S k)) /\
      composite N /\ 4 <= N <= 997 * 997.
Proof. apply (notebook_N_range (fun _ _ => 0)). intros k l Hl. lia. Defined.

End SemiprimeExtras.
